(** * Guess-Painters-Game: the decision-tree builder and the game engine

    A shallow embedding of [TreeNode.py]: the [TreeNode] class, the split
    selector [best_split], the recursive builder [build_tree] and the
    interactive engine [play_game], followed by the properties of the
    specification that were checked against them.

    Conventions of the embedding.
    - A Python [str] is a [string] whose characters are read as code points
      below 256; [strip] and [lower] follow [str.strip] and [str.lower] on
      that range.
    - A Python [int] is a [Z].
    - A row ([dict]) is a [gmap string string]; [row[col]] on a missing key
      raises [KeyError].
    - A computation that can raise returns a [result]; a computation that
      also reads the keyboard, writes to the terminal and reads the object
      store is a function on [world].
    - A [TreeNode] object holds references in [left] and [right].  The record
      is parametrised by the type of references: whole subtrees for the value
      that [build_tree] returns ([tree]), addresses of a store for the objects
      that [play_game] walks through. *)

From Equations Require Import Equations.
From Stdlib Require Import Ascii.
From stdpp Require Import gmap strings list pretty.

Set Warnings "-register-all".
Local Open Scope Z_scope.

(** * The program *)

(** ** Python strings *)

Module PyStr.

(** [str.isspace] on one code point below 256. *)
Definition isspace (c : ascii) : bool :=
  let n := N_of_ascii c in
  ((9 <=? n) && (n <=? 13) || (28 <=? n) && (n <=? 32)
   || (n =? 133) || (n =? 160))%N.

Fixpoint lstrip (s : string) : string :=
  match s with
  | EmptyString => EmptyString
  | String c s' => if isspace c then lstrip s' else s
  end.

Fixpoint rstrip (s : string) : string :=
  match s with
  | EmptyString => EmptyString
  | String c s' =>
      match rstrip s' with
      | EmptyString => if isspace c then EmptyString else String c EmptyString
      | r => String c r
      end
  end.

(** [s.strip()] *)
Definition strip (s : string) : string := rstrip (lstrip s).

Definition lower_char (c : ascii) : ascii :=
  let n := N_of_ascii c in
  if ((65 <=? n) && (n <=? 90)
      || (192 <=? n) && (n <=? 222) && negb (n =? 215))%N
  then ascii_of_N (n + 32) else c.

(** [s.lower()] *)
Fixpoint lower (s : string) : string :=
  match s with
  | EmptyString => EmptyString
  | String c s' => String (lower_char c) (lower s')
  end.

(** [bool(s)]: a string is truthy when it is not empty. *)
Definition truthy (s : string) : bool :=
  match s with EmptyString => false | _ => true end.

Definition newline : string := String (ascii_of_N 10) EmptyString.

End PyStr.

(** ** Exceptions and results *)

Inductive exn :=
| KeyError (key : string)
| IndexError
| AttributeError
| EOFError.

Inductive result (A : Type) :=
| Ok (a : A)
| Raise (e : exn).
Arguments Ok {A} a.
Arguments Raise {A} e.

#[global] Instance result_ret : MRet result := @Ok.
#[global] Instance result_bind : MBind result := λ A B f m,
  match m with
  | Ok a => f a
  | Raise e => Raise e
  end.

(** A list comprehension [[f x for x in l]] whose body can raise. *)
Fixpoint comprehension {A B} (f : A → result B) (l : list A) : result (list B) :=
  match l with
  | [] => Ok []
  | x :: l' => y ← f x; ys ← comprehension f l'; Ok (y :: ys)
  end.

(** A filtering comprehension [[x for x in l if p x]]. *)
Fixpoint comprehension_if {A} (p : A → result bool) (l : list A) : result (list A) :=
  match l with
  | [] => Ok []
  | x :: l' =>
      b ← p x; xs ← comprehension_if p l';
      Ok (if b : bool then x :: xs else xs)
  end.

(** [sum(1 for x in l if p x)] *)
Fixpoint sum_1_if {A} (p : A → result bool) (l : list A) : result Z :=
  match l with
  | [] => Ok 0
  | x :: l' =>
      b ← p x; n ← sum_1_if p l';
      Ok (if b : bool then 1 + n else n)
  end.

(** ** Rows *)

Abbreviation dict := (gmap string string).

(** [row[col]] *)
Definition getitem (row : dict) (col : string) : result string :=
  match row !! col with
  | Some v => Ok v
  | None => Raise (KeyError col)
  end.

(** [l[i]] on a list, for a non-negative index. *)
Definition list_getitem {A} (l : list A) (i : nat) : result A :=
  match l !! i with
  | Some v => Ok v
  | None => Raise IndexError
  end.

(** [enumerate(l)] *)
Definition enumerate {A} (l : list A) : list (nat * A) :=
  zip (seq 0 (length l)) l.

(** ** The node class *)

Record TreeNode {ref : Type} := mkTreeNode {
  question : option string;
  left : option ref;
  right : option ref;
  answers : list string }.
Arguments TreeNode : clear implicits.
Arguments mkTreeNode {ref}.

(** [TreeNode.__init__]: [self.answers = answers if answers else []]. *)
Definition TreeNode_init {ref} (question : option string)
    (left right : option ref) (answers : option (list string)) : TreeNode ref :=
  mkTreeNode question left right
    (match answers with
     | Some (a :: l) => a :: l
     | _ => []
     end).

(** [TreeNode.is_leaf]: [return bool(self.answers)]. *)
Definition is_leaf {ref} (self : TreeNode ref) : bool :=
  match answers self with
  | [] => false
  | _ :: _ => true
  end.

(** The value [build_tree] returns: a node that owns its children. *)
Inductive tree := Tree (node : TreeNode tree).

Definition node_of (t : tree) : TreeNode tree :=
  match t with Tree n => n end.

(** ** all_same_values *)

(** The inner generator of [all_same_values]:
    [all(row[col] == first_row_values[i] for i, col in enumerate(col_names))];
    [all] stops at the first false comparison. *)
Fixpoint all_columns_equal (row : dict) (first_row_values : list string)
    (cols : list (nat * string)) : result bool :=
  match cols with
  | [] => Ok true
  | (i, col) :: cols' =>
      v ← getitem row col;
      w ← list_getitem first_row_values i;
      if String.eqb v w then all_columns_equal row first_row_values cols'
      else Ok false
  end.

Definition all_same_values (rows : list dict) (col_names : list string)
    : result bool :=
  match rows with
  | [] => Ok true
  | row0 :: rest =>
      first_row_values ← comprehension (getitem row0) col_names;
      bs ← comprehension
             (λ row, all_columns_equal row first_row_values (enumerate col_names))
             rest;
      Ok (forallb id bs)
  end.

(** ** best_split *)

(** [row[classification].strip() == v] *)
Definition strips_to (classification v : string) (row : dict) : result bool :=
  x ← getitem row classification; Ok (String.eqb (PyStr.strip x) v).

(** [best_balance] starts at [float('inf')] and then holds an [int]. *)
Inductive balance :=
| Inf
| Fin (n : Z).

(** [b < best_balance] for an [int] [b]. *)
Definition lt_balance (b : Z) (best_balance : balance) : bool :=
  match best_balance with
  | Inf => true
  | Fin n => b <? n
  end.

(** The body of the [for] loop of [best_split], with the two loop-carried
    variables. *)
Fixpoint best_split_loop (rows : list dict) (classifications : list string)
    (best_classification : option string) (best_balance : balance)
    : result (option string) :=
  match classifications with
  | [] => Ok best_classification
  | classification :: rest =>
      count_0 ← sum_1_if (strips_to classification "0") rows;
      count_1 ← sum_1_if (strips_to classification "1") rows;
      let bal := Z.abs (count_0 - count_1) in
      let len := Z.of_nat (length rows) in
      if (0 <? count_0) && (count_0 <? len) && (0 <? count_1) && (count_1 <? len)
         && lt_balance bal best_balance
      then best_split_loop rows rest (Some classification) (Fin bal)
      else best_split_loop rows rest best_classification best_balance
  end.

Definition best_split (rows : list dict) (classifications : list string)
    : result (option string) :=
  best_split_loop rows classifications None Inf.

(** A feature that [best_split] returns is one of the candidates; the
    recursion of [build_tree] rests on it. *)

Lemma best_split_loop_elem rows classifications best0 bal0 best :
  best_split_loop rows classifications best0 bal0 = Ok (Some best) →
  best ∈ classifications ∨ best0 = Some best.
Proof.
  revert best0 bal0.
  induction classifications as [|c rest IH]; intros best0 bal0; simpl.
  - intros [= ->]. by right.
  - destruct (sum_1_if (strips_to c "0") rows) as [n0|]; [|done].
    destruct (sum_1_if (strips_to c "1") rows) as [n1|]; [|done].
    simpl. case_match; intros [Hin|Heq]%IH.
    + left. by right.
    + injection Heq as ->. left. by left.
    + left. by right.
    + by right.
Qed.

Lemma best_split_elem rows classifications best :
  best_split rows classifications = Ok (Some best) → best ∈ classifications.
Proof. by intros [?|?]%best_split_loop_elem. Qed.

(** ** build_tree *)

(** [[row[label_col] for row in rows]] wrapped in a leaf. *)
Definition leaf_of_rows (rows : list dict) (label_col : string) : result tree :=
  labels ← comprehension (λ row, getitem row label_col) rows;
  Ok (Tree (TreeNode_init None None None (Some labels))).

(** [[c for c in classifications if c != best_classification]] *)
Definition remaining (classifications : list string) (best_classification : string)
    : list string :=
  filter (λ c, c ≠ best_classification) classifications.

(** A value together with the equation that names it, so that a branch taken on
    the outcome of [best_split] still knows where the feature came from. *)
Definition inspect {A} (x : A) : {y : A | x = y} := exist _ x eq_refl.

(** The recursion is on the candidate list, which loses the chosen feature at
    every split. *)
Equations? build_tree (rows : list dict) (classifications : list string)
    (label_col : string) : result tree by wf (length classifications) lt :=
  build_tree [] _ _ := Ok (Tree (TreeNode_init None None None (Some [])));
  build_tree rows classifications label_col
    with all_same_values rows (label_col :: classifications) := {
    | Raise e := Raise e
    | Ok true := leaf_of_rows rows label_col
    | Ok false with inspect (best_split rows classifications) := {
      | exist _ (Raise e) _ := Raise e
      | exist _ (Ok None) _ := leaf_of_rows rows label_col
      | exist _ (Ok (Some best_classification)) Hbest
          with negb (bool_decide (classifications = []))
               && PyStr.truthy best_classification := {
        | false := leaf_of_rows rows label_col
        | true :=
            left_split ← comprehension_if (strips_to best_classification "0") rows;
            right_split ← comprehension_if (strips_to best_classification "1") rows;
            let remaining_classifications :=
              remaining classifications best_classification in
            left_child ← build_tree left_split remaining_classifications label_col;
            right_child ← build_tree right_split remaining_classifications label_col;
            Ok (Tree (TreeNode_init (Some best_classification)
                        (Some left_child) (Some right_child) None)) } } }.
Proof.
  all: apply best_split_elem in Hbest.
  all: apply (length_filter_lt _ _ best_classification); [done|]; by intros [].
Qed.

(** ** The world of the game engine *)

Abbreviation loc := positive.

(** What the terminal shows: the prompt of an [input] call, or a [print]ed
    line. *)
Inductive event :=
| Prompt (text : string)
| Print (text : string).

(** The object store, the lines still to be typed, and the terminal so far. *)
Record world := mkWorld {
  heap : gmap loc (TreeNode loc);
  stdin : list string;
  stdout : list event }.

Definition IO (A : Type) : Type := world → result A * world.

#[global] Instance IO_ret : MRet IO := λ A a w, (Ok a, w).
#[global] Instance IO_bind : MBind IO := λ A B f m w,
  match m w with
  | (Ok a, w') => f a w'
  | (Raise e, w') => (Raise e, w')
  end.

(** [print(text)] *)
Definition print (text : string) : IO unit := λ w,
  (Ok (), mkWorld (heap w) (stdin w) (stdout w ++ [Print text])).

(** Attribute access through a reference: [None] has no attributes.  A store
    that lacks the address has no Python counterpart; the model answers
    [AttributeError] there as well, so that it is total on every store. *)
Definition deref (h : gmap loc (TreeNode loc)) (node : option loc)
    : result (TreeNode loc) :=
  match node with
  | None => Raise AttributeError
  | Some l =>
      match h !! l with
      | Some self => Ok self
      | None => Raise AttributeError
      end
  end.

(** [f"{x}"] for an optional string: [str(None)] is ["None"]. *)
Definition format_optional (x : option string) : string :=
  match x with
  | None => "None"
  | Some s => s
  end.

(** ** ask_yes_no *)

(** [x in l] on strings. *)
Definition str_in (x : string) (l : list string) : bool :=
  existsb (String.eqb x) l.

Definition msg_retry : string := "Please answer 'yes' or 'no'.".

(** The [while True] loop of [ask_yes_no] over the lines still to be typed:
    every turn shows the prompt and reads one line; end of input raises
    [EOFError]. *)
Fixpoint ask_yes_no_loop (prompt : string) (lines : list string)
    (out : list event) : result bool * (list string * list event) :=
  let out := out ++ [Prompt (prompt +:+ " (yes/no): ")] in
  match lines with
  | [] => (Raise EOFError, ([], out))
  | line :: lines' =>
      let response := PyStr.lower (PyStr.strip line) in
      if str_in response ["yes"; "y"] then (Ok true, (lines', out))
      else if str_in response ["no"; "n"] then (Ok false, (lines', out))
      else ask_yes_no_loop prompt lines'
             (out ++ [Print msg_retry])
  end.

Definition ask_yes_no (prompt : string) : IO bool := λ w,
  let '(r, (lines, out)) := ask_yes_no_loop prompt (stdin w) (stdout w) in
  (r, mkWorld (heap w) lines out).

(** A call that returns has consumed at least one line; the loops of
    [play_game] and [main] rest on it. *)

Lemma ask_yes_no_loop_shorter prompt lines out answer lines' out' :
  ask_yes_no_loop prompt lines out = (Ok answer, (lines', out')) →
  (length lines' < length lines)%nat.
Proof.
  revert out. induction lines as [|line lines IH]; intros out; simpl; [done|].
  repeat case_match; try (intros [= <- <- <-]; lia).
  intros ?%IH. lia.
Qed.

Lemma ask_yes_no_shorter prompt w answer w' :
  ask_yes_no prompt w = (Ok answer, w') →
  (length (stdin w') < length (stdin w))%nat.
Proof.
  unfold ask_yes_no.
  destruct (ask_yes_no_loop _ _ _) as [r [lines out]] eqn:Hloop.
  intros [= -> <-]. simpl. by eapply ask_yes_no_loop_shorter.
Qed.

(** ** play_game *)

(** The [while not node.is_leaf()] loop, with the local variables [node] and
    [guesses].  Every turn reads at least one line, so the loop ends on every
    store, cyclic ones included. *)
Equations? descend (node : option loc) (guesses : Z) (w : world)
    : result (option loc * Z) * world by wf (length (stdin w)) lt :=
  descend node guesses w with deref (heap w) node := {
    | Raise e := (Raise e, w)
    | Ok self with is_leaf self := {
      | true := (Ok (node, guesses), w)
      | false with inspect (ask_yes_no (format_optional (question self)) w) := {
        | exist _ (Raise e, w') _ := (Raise e, w')
        | exist _ (Ok answer, w') Hask :=
            descend (if answer : bool then right self else left self)
                    (guesses + 1) w' } } }.
Proof. by eapply ask_yes_no_shorter. Qed.

Definition msg_intro : string :=
  PyStr.newline
  +:+ "Think of an element from the dataset. I will try to guess which one it is!"
  +:+ PyStr.newline.

Definition msg_guess (element : string) : string :=
  "Is your guess " +:+ PyStr.strip element +:+ "?".

Definition msg_yay (guesses : Z) : string :=
  "Yay! I guessed it in " +:+ pretty guesses +:+ " questions!".

Definition msg_well_played (guesses : Z) : string :=
  "Well played! I couldn't guess your element. I used "
  +:+ pretty guesses +:+ " questions.".

Definition msg_no_guess : string := "I couldn't make a guess.".

(** The [for element in guessed_elements] loop with its [break]; returns
    [correct] and [guesses]. *)
Fixpoint ask_each (guessed_elements : list string) (guesses : Z)
    : IO (bool * Z) :=
  match guessed_elements with
  | [] => mret (false, guesses)
  | element :: rest =>
      answer ← ask_yes_no (msg_guess element);
      let guesses := guesses + 1 in
      if answer : bool
      then _ ← print (msg_yay guesses); mret (true, guesses)
      else ask_each rest guesses
  end.

Definition play_game (tree : option loc) : IO unit :=
  _ ← print msg_intro;
  '(node, guesses) ← descend tree 0;
  self ← (λ w, (deref (heap w) node, w));
  let guessed_elements := answers self in
  match guessed_elements with
  | [element] =>
      (* len(guessed_elements) == 1 *)
      correct ← ask_yes_no (msg_guess element);
      let guesses := guesses + 1 in
      if correct : bool then print (msg_yay guesses)
      else print (msg_well_played guesses)
  | _ :: _ :: _ =>
      (* len(guessed_elements) > 1 *)
      '(correct, guesses) ← ask_each guessed_elements guesses;
      if correct : bool then mret ()
      else print (msg_well_played guesses)
  | [] => print msg_no_guess
  end.

(** ** The session loop of main *)

(** The loop of [main] ends because a game never gives lines back; this takes
    the unfolding of [descend] and the way each step changes the world. *)

Definition descend_body (node : option loc) (guesses : Z) (w : world)
    : result (option loc * Z) * world :=
  match deref (heap w) node with
  | Raise e => (Raise e, w)
  | Ok self =>
      if is_leaf self then (Ok (node, guesses), w)
      else
        match ask_yes_no (format_optional (question self)) w with
        | (Raise e, w') => (Raise e, w')
        | (Ok answer, w') =>
            descend (if answer : bool then right self else left self)
                    (guesses + 1) w'
        end
  end.

Lemma descend_eq node guesses w :
  descend node guesses w = descend_body node guesses w.
Proof.
  simp descend. unfold descend_body.
  destruct (deref _ _) as [self|]; simp descend; [|done].
  destruct (is_leaf self); simp descend; [done|].
  destruct (inspect _) as [[[answer|e] w'] Hask]; simp descend.
  - rewrite Hask. by simp descend.
  - by rewrite Hask.
Qed.

(** The loop only ends, without raising, on a node that [is_leaf] accepts. *)
Lemma descend_leaf node guesses w node' guesses' w' :
  descend node guesses w = (Ok (node', guesses'), w') →
  ∃ self, deref (heap w') node' = Ok self ∧ is_leaf self = true.
Proof.
  remember (length (stdin w)) as n eqn:Hn.
  revert node guesses w Hn. induction (lt_wf n) as [n _ IH].
  intros node guesses w ->. rewrite descend_eq. unfold descend_body.
  destruct (deref (heap w) node) as [self|] eqn:Hself; [|done].
  destruct (is_leaf self) eqn:Hleaf; [intros [= <- <- <-]; by eauto|].
  destruct (ask_yes_no _ w) as [[answer|e] w1] eqn:Hask; [|by intros [=]].
  intros Hrec. eapply IH; [|done|exact Hrec]. by eapply ask_yes_no_shorter.
Qed.

(** How a run may change the world: the store stays, lines are consumed from
    the front, and the terminal grows by events that all satisfy [Q]. *)
Definition evolves (Q : event → Prop) (w w' : world) : Prop :=
  heap w' = heap w
  ∧ stdin w' `suffix_of` stdin w
  ∧ ∃ out, stdout w' = stdout w ++ out ∧ Forall Q out.

Section evolution.
Context (Q : event → Prop).

#[global] Instance evolves_preorder : PreOrder (evolves Q).
Proof.
  split.
  - intros w. split_and!; [done..|]. exists []. by rewrite app_nil_r.
  - intros w1 w2 w3 (Hh & Hi & out & Ho & HQ) (Hh' & Hi' & out' & Ho' & HQ').
    split_and!; [congruence|by etrans|].
    exists (out ++ out'). split; [|by apply Forall_app].
    by rewrite Ho', Ho, (assoc_L (++)).
Qed.

Lemma print_evolves text w r w' :
  Q (Print text) → print text w = (r, w') → evolves Q w w'.
Proof.
  intros HQ [= <- <-]. split_and!; simpl; [done..|].
  exists [Print text]. split; [done|]. by constructor.
Qed.

Hypothesis Q_prompt : ∀ text, Q (Prompt text).
Hypothesis Q_retry : Q (Print msg_retry).

Lemma ask_yes_no_loop_evolves prompt lines out r lines' out' :
  ask_yes_no_loop prompt lines out = (r, (lines', out')) →
  lines' `suffix_of` lines ∧ ∃ new, out' = out ++ new ∧ Forall Q new.
Proof.
  revert out. induction lines as [|line lines IH]; intros out; simpl.
  - intros [= <- <- <-]. split; [done|]. eexists. split; [done|]. by constructor.
  - repeat case_match.
    + intros [= <- <- <-]. split; [by apply suffix_cons_r|].
      eexists. split; [done|]. by constructor.
    + intros [= <- <- <-]. split; [by apply suffix_cons_r|].
      eexists. split; [done|]. by constructor.
    + intros [Hi (new & -> & Hnew)]%IH. split; [by apply suffix_cons_r|].
      eexists. rewrite <-!(assoc_L (++)). split; [done|].
      simpl. by repeat constructor.
Qed.

Lemma ask_yes_no_evolves prompt w r w' :
  ask_yes_no prompt w = (r, w') → evolves Q w w'.
Proof.
  unfold ask_yes_no.
  destruct (ask_yes_no_loop _ _ _) as [r' [lines out]] eqn:Hloop.
  intros [= <- <-]. apply ask_yes_no_loop_evolves in Hloop as [??].
  by split_and!.
Qed.

Lemma descend_evolves node guesses w r w' :
  descend node guesses w = (r, w') → evolves Q w w'.
Proof.
  remember (length (stdin w)) as n eqn:Hn.
  revert node guesses w Hn. induction (lt_wf n) as [n _ IH].
  intros node guesses w ->. rewrite descend_eq. unfold descend_body.
  destruct (deref _ _) as [self|]; [|by intros [= <- <-]].
  destruct (is_leaf self); [by intros [= <- <-]|].
  destruct (ask_yes_no _ w) as [[answer|e] w1] eqn:Hask.
  - intros Hrec. etrans; [by eapply ask_yes_no_evolves|].
    eapply IH; [|done|exact Hrec]. by eapply ask_yes_no_shorter.
  - intros [= <- <-]. by eapply ask_yes_no_evolves.
Qed.

Hypothesis Q_yay : ∀ guesses, Q (Print (msg_yay guesses)).

Lemma ask_each_evolves guessed_elements guesses w r w' :
  ask_each guessed_elements guesses w = (r, w') → evolves Q w w'.
Proof.
  revert guesses w. induction guessed_elements as [|element rest IH];
    intros guesses w; simpl.
  - by intros [= <- <-].
  - unfold mbind, IO_bind at 1.
    destruct (ask_yes_no _ w) as [[[]|e] w1] eqn:Hask.
    + intros [= <- <-]. etrans; [by eapply ask_yes_no_evolves|].
      eapply print_evolves; [apply Q_yay|done].
    + intros ?%IH. etrans; [by eapply ask_yes_no_evolves|done].
    + intros [= <- <-]. by eapply ask_yes_no_evolves.
Qed.

Hypothesis Q_intro : Q (Print msg_intro).
Hypothesis Q_well_played : ∀ guesses, Q (Print (msg_well_played guesses)).

(** [msg_no_guess] is not among the hypotheses: the loop only ends on a
    node whose answers are not empty. *)
Lemma play_game_evolves tree w r w' :
  play_game tree w = (r, w') → evolves Q w w'.
Proof.
  unfold play_game, mbind, IO_bind. cbn [print].
  set (w1 := mkWorld _ _ _).
  assert (evolves Q w w1) as Hw1 by by eapply print_evolves.
  destruct (descend tree 0 w1) as [[[node guesses]|e] w2] eqn:Hdesc.
  2:{ apply descend_evolves in Hdesc. intros [= <- <-]. by etrans. }
  pose proof (descend_leaf _ _ _ _ _ _ Hdesc) as (self & Hself & Hleaf).
  apply descend_evolves in Hdesc. rewrite Hself.
  unfold is_leaf in Hleaf.
  destruct (answers self) as [|element [|element' rest]]; [done| |].
  - destruct (ask_yes_no _ w2) as [[[]|e] w3] eqn:Hask;
      apply ask_yes_no_evolves in Hask.
    + intros ?%print_evolves; [|apply Q_yay].
      etrans; [done|]. etrans; [done|]. by etrans.
    + intros ?%print_evolves; [|apply Q_well_played].
      etrans; [done|]. etrans; [done|]. by etrans.
    + intros [= <- <-]. etrans; [done|]. by etrans.
  - destruct (ask_each _ guesses w2) as [[[[] g]|e] w3] eqn:Hask;
      apply ask_each_evolves in Hask.
    + intros [= <- <-]. etrans; [done|]. by etrans.
    + intros ?%print_evolves; [|apply Q_well_played].
      etrans; [done|]. etrans; [done|]. by etrans.
    + intros [= <- <-]. etrans; [done|]. by etrans.
Qed.
End evolution.

(** [while True: play_game(tree); if not ask_yes_no(...): print("Goodbye!");
    break] *)
Equations? main_loop (tree : option loc) (w : world) : result unit * world
    by wf (length (stdin w)) lt :=
  main_loop tree w with inspect (play_game tree w) := {
    | exist _ (Raise e, w1) _ := (Raise e, w1)
    | exist _ (Ok _, w1) Hplay
        with inspect (ask_yes_no "Would you like to play again?" w1) := {
      | exist _ (Raise e, w2) _ := (Raise e, w2)
      | exist _ (Ok true, w2) Hask := main_loop tree w2
      | exist _ (Ok false, w2) _ := print "Goodbye!" w2 } }.
Proof.
  apply (play_game_evolves (λ _, True)) in Hplay
    as (_ & Hi%suffix_length & _); [|done..].
  apply ask_yes_no_shorter in Hask. lia.
Qed.

(** ** From a built tree to the store *)

(** The objects of a built tree laid out in the store, in the order in which
    the constructor calls of [build_tree] create them: the left subtree, the
    right subtree, then the node itself, each at a fresh address. *)
Fixpoint store_tree (t : tree) (h : gmap loc (TreeNode loc))
    : loc * gmap loc (TreeNode loc) :=
  match t with
  | Tree n =>
      let '(l, h1) :=
        match left n with
        | Some c => let '(a, h') := store_tree c h in (Some a, h')
        | None => (None, h)
        end in
      let '(r, h2) :=
        match right n with
        | Some c => let '(a, h') := store_tree c h1 in (Some a, h')
        | None => (None, h1)
        end in
      let a := fresh (dom h2) in
      (a, <[a := mkTreeNode (question n) l r (answers n)]> h2)
  end.

(** ** read_csv *)

(** [{header[i]: row[i] for i in range(len(header))}]: the keys are inserted
    from left to right, so a later column of the same name replaces an
    earlier one; a row with fewer cells than the header raises
    [IndexError]. *)
Fixpoint row_dict_loop (header row : list string) (indices : list nat)
    (row_dict : dict) : result dict :=
  match indices with
  | [] => Ok row_dict
  | i :: indices' =>
      k ← list_getitem header i;
      v ← list_getitem row i;
      row_dict_loop header row indices' (<[k := v]> row_dict)
  end.

Definition row_dict_of (header row : list string) : result dict :=
  row_dict_loop header row (seq 0 (length header)) ∅.

(** [read_csv] from [rows = list(reader)] on: the argument is the list of
    records that the [csv] reader yields for the file (opening the file and
    splitting its lines into cells are the library's).  The result is
    [(rows_as_dicts, features, label_col)]. *)
Definition read_csv (rows : list (list string))
    : result (list dict * list string * string) :=
  header ← list_getitem rows 0;
  let features := drop 1 header in
  let label_col_index := 0%nat in
  label_col ← list_getitem header label_col_index;
  let data_rows := drop 1 rows in
  rows_as_dicts ← comprehension (row_dict_of header) data_rows;
  Ok (rows_as_dicts, features, label_col).

(** ** export_tree_to_png *)

(** The calls made on the [Digraph]: [dot.node(name, label, **attrs)] and
    [dot.edge(tail, head, label=label)]. *)
Inductive dot_call :=
| DotNode (name label : string) (attrs : list (string * string))
| DotEdge (tail head label : string).

(** [sep.join(l)] *)
Fixpoint join (sep : string) (l : list string) : string :=
  match l with
  | [] => ""
  | [x] => x
  | x :: l' => x +:+ sep +:+ join sep l'
  end.

(** The nested function [add_nodes_edges] on a node object, with the
    [nonlocal] counter [node_id] and the calls made on [dot] so far as state.
    A child that is [None] has no [is_leaf]. *)
Fixpoint add_nodes_edges_obj (node : tree) (parent_id : option string)
    (edge_label : string) (node_id : Z) (dot : list dot_call)
    : result (Z * list dot_call) :=
  match node with
  | Tree self =>
      let current_id : string := pretty node_id in
      let node_id := node_id + 1 in
      let dot :=
        if is_leaf self
        then dot ++ [DotNode current_id
                       ("Guess(es): " +:+ join ", " (answers self))
                       [("shape", "box"); ("style", "filled");
                        ("color", "lightgrey")]]
        else dot ++ [DotNode current_id
                       ("Q: " +:+ format_optional (question self) +:+ "?")
                       [("shape", "ellipse")]] in
      let dot :=
        match parent_id with
        | Some p => dot ++ [DotEdge p current_id edge_label]
        | None => dot
        end in
      if is_leaf self then Ok (node_id, dot)
      else
        match left self with
        | None => Raise AttributeError
        | Some l =>
            '(node_id, dot) ← add_nodes_edges_obj l (Some current_id) "no"
                                node_id dot;
            match right self with
            | None => Raise AttributeError
            | Some r =>
                add_nodes_edges_obj r (Some current_id) "yes" node_id dot
            end
        end
  end.

Definition add_nodes_edges (node : option tree) (parent_id : option string)
    (edge_label : string) (node_id : Z) (dot : list dot_call)
    : result (Z * list dot_call) :=
  match node with
  | None => Raise AttributeError
  | Some t => add_nodes_edges_obj t parent_id edge_label node_id dot
  end.

(** [export_tree_to_png(root, filename)]: the value returned stands for the
    calls that [dot.render] receives; rendering is the library's. *)
Definition export_tree_to_png (root : option tree) (filename : string)
    : IO (list dot_call) := λ w,
  match add_nodes_edges root None "" 0 [] with
  | Raise e => (Raise e, w)
  | Ok (_, dot) =>
      (_ ← print ("Tree image saved as " +:+ filename); mret dot) w
  end.

(** ** main *)

(** [main], given the records of [painters.csv].  The objects that
    [build_tree] creates are in the store from then on; [play_game] receives
    the address of the root. *)
Definition main (records : list (list string)) : IO unit := λ w,
  match read_csv records with
  | Raise e => (Raise e, w)
  | Ok (rows, features, label_col) =>
      match build_tree rows features label_col with
      | Raise e => (Raise e, w)
      | Ok t =>
          let '(root, h) := store_tree t (heap w) in
          let w := mkWorld h (stdin w) (stdout w) in
          (_ ← export_tree_to_png (Some t) "tree_visual.png";
           main_loop (Some root)) w
      end
  end.

(** * Vocabulary of the properties *)

(** The body of [build_tree] as one equation. *)
Definition build_tree_body (rows : list dict) (classifications : list string)
    (label_col : string) : result tree :=
  match rows with
  | [] => Ok (Tree (TreeNode_init None None None (Some [])))
  | _ :: _ =>
      same ← all_same_values rows (label_col :: classifications);
      if same : bool then leaf_of_rows rows label_col
      else
        best ← best_split rows classifications;
        match best with
        | None => leaf_of_rows rows label_col
        | Some best_classification =>
            if negb (bool_decide (classifications = []))
               && PyStr.truthy best_classification
            then
              left_split ← comprehension_if (strips_to best_classification "0") rows;
              right_split ← comprehension_if (strips_to best_classification "1") rows;
              let remaining_classifications :=
                remaining classifications best_classification in
              left_child ← build_tree left_split remaining_classifications label_col;
              right_child ← build_tree right_split remaining_classifications label_col;
              Ok (Tree (TreeNode_init (Some best_classification)
                          (Some left_child) (Some right_child) None))
            else leaf_of_rows rows label_col
        end
  end.

Definition main_loop_body (tree : option loc) (w : world) : result unit * world :=
  match play_game tree w with
  | (Raise e, w1) => (Raise e, w1)
  | (Ok _, w1) =>
      match ask_yes_no "Would you like to play again?" w1 with
      | (Raise e, w2) => (Raise e, w2)
      | (Ok true, w2) => main_loop tree w2
      | (Ok false, w2) => print "Goodbye!" w2
      end
  end.

(** ** Measures on built trees *)

(** Number of nodes on the longest path from the root down. *)
Fixpoint depth (t : tree) : nat :=
  match t with
  | Tree n =>
      S (Nat.max (from_option depth 0%nat (left n))
                 (from_option depth 0%nat (right n)))
  end.

(** The questions met on each path from the root down to a node without
    children, in the order in which they are asked. *)
Fixpoint paths (t : tree) : list (list string) :=
  match t with
  | Tree n =>
      match left n, right n with
      | None, None => [[]]
      | l, r =>
          (λ p, option_list (question n) ++ p)
            <$> (from_option paths [] l ++ from_option paths [] r)
      end
  end.

(** The answers held by each node without children, from left to right. *)
Fixpoint leaves (t : tree) : list (list string) :=
  match t with
  | Tree n =>
      match left n, right n with
      | None, None => [answers n]
      | l, r => from_option leaves [] l ++ from_option leaves [] r
      end
  end.

(** ** The split selector in terms of the rows *)

(** The value of [row] in column [c] trims to [v]. *)
Definition trims_to (c v : string) (row : dict) : Prop :=
  PyStr.strip <$> row !! c = Some v.

#[global] Instance trims_to_dec c v row : Decision (trims_to c v row).
Proof. unfold trims_to. apply _. Defined.

(** Number of rows in the bucket of [v] for feature [c]. *)
Definition bucket (rows : list dict) (c v : string) : Z :=
  Z.of_nat (length (filter (trims_to c v) rows)).

(** Both buckets strictly positive and strictly smaller than the row count. *)
Definition usable (rows : list dict) (c : string) : Prop :=
  0 < bucket rows c "0" < Z.of_nat (length rows)
  ∧ 0 < bucket rows c "1" < Z.of_nat (length rows).

(** Absolute difference of the two bucket counts. *)
Definition imbalance (rows : list dict) (c : string) : Z :=
  Z.abs (bucket rows c "0" - bucket rows c "1").

(** Every row carries every column of [cols]. *)
Definition has_columns (cols : list string) (rows : list dict) : Prop :=
  Forall (λ row : dict, ∀ c, c ∈ cols → is_Some (row !! c)) rows.

#[global] Instance has_columns_dec cols rows : Decision (has_columns cols rows).
Proof.
  refine (cast_if (decide (Forall (λ row : dict,
                     Forall (λ c, is_Some (row !! c)) cols) rows)));
    unfold has_columns.
  - eapply Forall_impl; [eassumption|]. intros row Hrow c Hc.
    by eapply Forall_forall in Hrow.
  - intros Hcols. apply n. eapply Forall_impl; [eassumption|].
    intros row Hrow. apply Forall_forall. intros c Hc. by apply Hrow.
Defined.

(** [f] is the first feature of [cls], in list order, among the usable ones
    of smallest imbalance: usable features before it are strictly worse,
    usable features after it are no better. *)
Definition first_most_balanced (rows : list dict) (cls : list string)
    (f : string) : Prop :=
  ∃ pre post, cls = pre ++ f :: post ∧ usable rows f
    ∧ (∀ g, g ∈ pre → usable rows g → imbalance rows f < imbalance rows g)
    ∧ (∀ g, g ∈ post → usable rows g → imbalance rows f ≤ imbalance rows g).

(** ** The builder in terms of the rows *)

(** One step of a successful [build_tree] run. *)
Inductive build_step (label_col : string) (rows : list dict) (cls : list string)
    : tree → Prop :=
| step_empty :
    rows = [] →
    build_step label_col rows cls (Tree (mkTreeNode None None None []))
| step_leaf labels :
    rows ≠ [] →
    Forall2 (λ (row : dict) v, row !! label_col = Some v) rows labels →
    build_step label_col rows cls (Tree (mkTreeNode None None None labels))
| step_split best left_child right_child :
    rows ≠ [] → cls ≠ [] → best ≠ "" →
    best_split rows cls = Ok (Some best) →
    build_tree (filter (trims_to best "0") rows) (remaining cls best) label_col
      = Ok left_child →
    build_tree (filter (trims_to best "1") rows) (remaining cls best) label_col
      = Ok right_child →
    build_step label_col rows cls
      (Tree (mkTreeNode (Some best) (Some left_child) (Some right_child) [])).

(** ** The dialogue *)

(** What [ask_yes_no] makes of one typed line: [Some] for a yes or a no,
    [None] for a line it asks again about. *)
Definition reply (line : string) : option bool :=
  let response := PyStr.lower (PyStr.strip line) in
  if str_in response ["yes"; "y"] then Some true
  else if str_in response ["no"; "n"] then Some false
  else None.

(** What the terminal shows when [ask_yes_no prompt] asks once. *)
Definition asked (prompt : string) : event := Prompt (prompt +:+ " (yes/no): ").

(** The branch of [play_game] for more than one answer.  The branch for a
    single answer does the same on a one-element list
    ([play_game_at_leaf]). *)
Definition confirm (guessed_elements : list string) (guesses : Z) : IO unit :=
  '(correct, guesses) ← ask_each guessed_elements guesses;
  if correct : bool then mret () else print (msg_well_played guesses).

(** ** Sample data *)

(** A row written as its list of (column, value) pairs. *)
Definition row_of (kvs : list (string * string)) : dict := list_to_map kvs.

Module Sample.

(** The two-animal table of the specification. *)
Definition pets : list dict :=
  [ row_of [("label", "cat"); ("legs", "1")];
    row_of [("label", "dog"); ("legs", "0")] ].

(** [wings] puts every row on one side; [tail] and [fur] tie; [legs] has a
    value that is neither "0" nor "1". *)
Definition zoo : list dict :=
  [ row_of [("label", "cat"); ("wings", "0"); ("tail", "1"); ("fur", " 1 "); ("legs", "1")];
    row_of [("label", "dog"); ("wings", "0"); ("tail", "1"); ("fur", "0"); ("legs", "0")];
    row_of [("label", "emu"); ("wings", "0"); ("tail", "0"); ("fur", "0"); ("legs", "2")];
    row_of [("label", "eel"); ("wings", "0"); ("tail", "0"); ("fur", "1"); ("legs", "0")] ].

Definition zoo_features : list string := ["wings"; "legs"; "tail"; "fur"].

End Sample.

(** A store with one question above two leaves, the "yes" leaf holding two
    answers. *)
Definition parlour : gmap loc (TreeNode loc) :=
  {[ 1%positive := TreeNode_init None None None (Some ["cat"; "dog"]);
     2%positive := TreeNode_init None None None (Some ["emu"]);
     3%positive := TreeNode_init (Some "fur") (Some 2%positive) (Some 1%positive) None ]}.

(** ** Shapes of trees and stores *)


(** Every node that [is_leaf] rejects has both children, and so on below. *)
Fixpoint proper (t : tree) : Prop :=
  match t with
  | Tree n =>
      is_leaf n = true
      ∨ match left n, right n with
        | Some l, Some r => proper l ∧ proper r
        | _, _ => False
        end
  end.

(** The shape of a node as [build_tree] makes it: a leaf carries answers and
    nothing else; any other node carries a question and two children and no
    answers. *)
Fixpoint built_shape (t : tree) : Prop :=
  match t with
  | Tree n =>
      match question n, left n, right n with
      | None, None, None => answers n ≠ []
      | Some _, Some l, Some r => answers n = [] ∧ built_shape l ∧ built_shape r
      | _, _, _ => False
      end
  end.

(** The store [h] holds the tree [t] at address [l]. *)
Fixpoint tree_at (h : gmap loc (TreeNode loc)) (t : tree) (l : loc) : Prop :=
  match t with
  | Tree n =>
      ∃ ol or,
        h !! l = Some (mkTreeNode (question n) ol or (answers n))
        ∧ match left n, ol with
          | Some c, Some a => tree_at h c a
          | None, None => True
          | _, _ => False
          end
        ∧ match right n, or with
          | Some c, Some a => tree_at h c a
          | None, None => True
          | _, _ => False
          end
  end.

(** ** Rows against trees *)

(** The labels of the rows, one per row, in order. *)
Definition labels_of (label_col : string) (rows : list dict) (labels : list string)
    : Prop :=
  Forall2 (λ (row : dict) v, row !! label_col = Some v) rows labels.

(** Every candidate feature of every row trims to "0" or to "1". *)
Definition binary (cls : list string) (rows : list dict) : Prop :=
  Forall (λ row : dict, ∀ c, c ∈ cls → trims_to c "0" row ∨ trims_to c "1" row)
         rows.

(** The way through the tree of someone who answers every question from
    [row]: "yes" when the value of the asked feature trims to "1", "no" when
    it trims to "0".  The result is the questions asked with the replies
    given, and the answers of the node where [is_leaf] holds; [None] when a
    question cannot be answered from the row or a child is missing. *)
Fixpoint walk (t : tree) (row : dict)
    : option (list (string * bool) * list string) :=
  match t with
  | Tree n =>
      if is_leaf n then Some ([], answers n)
      else
        match question n with
        | None => None
        | Some q =>
            if decide (trims_to q "1" row) then
              match right n with
              | Some r => prod_map (cons (q, true)) id <$> walk r row
              | None => None
              end
            else if decide (trims_to q "0" row) then
              match left n with
              | Some l => prod_map (cons (q, false)) id <$> walk l row
              | None => None
              end
            else None
        end
  end.

(** ** The graph calls *)





(** ** Typed lines *)

(** What the terminal shows while [ask_yes_no prompt] goes through lines it
    does not accept. *)
Definition retried (prompt : string) (retries : list string) : list event :=
  retries ≫= λ _, [asked prompt; Print msg_retry].

(** Between [w] and [w'] the lines [typed] were read, [n] of them yes/no
    replies. *)
Definition consumed (w w' : world) (n : Z) : Prop :=
  ∃ typed, stdin w = typed ++ stdin w'
           ∧ n = Z.of_nat (length (omap reply typed)).

(** The last line of a session. *)
Definition msg_goodbye : string := "Goodbye!".

(** The tree of [Sample.pets], and the store after [build_tree] made it. *)
Definition pets_tree : tree :=
  Tree (mkTreeNode (Some "legs")
          (Some (Tree (mkTreeNode None None None ["dog"])))
          (Some (Tree (mkTreeNode None None None ["cat"]))) []).

Definition pets_store : gmap loc (TreeNode loc) := (store_tree pets_tree ∅).2.

Definition pets_root : loc := (store_tree pets_tree ∅).1.

(** ** Missing columns *)

(** [e] is the [KeyError] for a column of [cols] that a row of [rows] does
    not have. *)
Definition missing (cols : list string) (rows : list dict) (e : exn) : Prop :=
  ∃ c (row : dict), e = KeyError c ∧ c ∈ cols ∧ row ∈ rows ∧ row !! c = None.

(** * Supporting lemmas *)

(** ** Unfolding *)

Lemma build_tree_eq rows classifications label_col :
  build_tree rows classifications label_col
  = build_tree_body rows classifications label_col.
Proof.
  destruct rows as [|r rows]; [by simp build_tree|].
  simp build_tree. unfold build_tree_body.
  destruct (all_same_values _ _) as [[]|]; simp build_tree; try done.
  destruct (inspect _) as [[[b|]|e] Hb]; simp build_tree.
  - destruct (negb _ && _) eqn:Hsplit; simp build_tree;
      simpl; rewrite Hb; simpl; by rewrite Hsplit.
  - simpl. by rewrite Hb.
  - simpl. by rewrite Hb.
Qed.

Lemma main_loop_eq tree w : main_loop tree w = main_loop_body tree w.
Proof.
  simp main_loop. unfold main_loop_body.
  destruct (inspect (play_game tree w)) as [[[[]|e] w1] Hplay];
    simp main_loop; [|by rewrite Hplay].
  destruct (inspect (ask_yes_no _ w1)) as [[[[]|e] w2] Hask];
    simp main_loop; rewrite Hplay, Hask; [|done..].
  by simp main_loop.
Qed.

(** ** The split selector *)

Section selector_facts.
Context (c v : string).

Lemma strips_to_Ok row b :
  strips_to c v row = Ok b ↔
  is_Some (row !! c) ∧ b = bool_decide (trims_to c v row).
Proof.
  unfold strips_to, getitem.
  destruct (row !! c) as [x|] eqn:Hx; simpl.
  - assert (trims_to c v row ↔ PyStr.strip x = v) as Htrim.
    { unfold trims_to. rewrite Hx. simpl. split; [by intros [= ?]|by intros ->]. }
    rewrite (bool_decide_ext _ _ Htrim).
    assert ((PyStr.strip x =? v)%string = bool_decide (PyStr.strip x = v)) as ->.
    { destruct (String.eqb_spec (PyStr.strip x) v).
      - by rewrite bool_decide_eq_true_2.
      - by rewrite bool_decide_eq_false_2. }
    split; [intros [= <-]; by eauto|by intros [_ ->]].
  - split; [done|]. by intros [[? [=]] _].
Qed.

Lemma comprehension_if_Ok rows l :
  comprehension_if (strips_to c v) rows = Ok l ↔
  Forall (λ row : dict, is_Some (row !! c)) rows
  ∧ l = filter (trims_to c v) rows.
Proof.
  revert l. induction rows as [|row rows IH]; intros l; simpl.
  - split; [by intros [= <-]|by intros [_ ->]].
  - destruct (strips_to c v row) as [b|e] eqn:Hb; simpl.
    + apply strips_to_Ok in Hb as [Hrow ->].
      destruct (comprehension_if _ rows) as [xs|e] eqn:Hxs; simpl.
      * pose proof (proj1 (IH xs) eq_refl) as [Hrows ->].
        rewrite filter_cons. split.
        -- intros [= <-]. split; [by constructor|]. by case_bool_decide; case_decide.
        -- intros [_ ->]. f_equal. by case_bool_decide; case_decide.
      * split; [done|]. intros [[_ Hrows]%Forall_cons _].
        pose proof (proj2 (IH _) (conj Hrows eq_refl)). congruence.
    + split; [done|]. intros [[Hrow _]%Forall_cons _].
      pose proof (proj2 (strips_to_Ok row _) (conj Hrow eq_refl)). congruence.
Qed.

Lemma sum_1_if_Ok rows n :
  sum_1_if (strips_to c v) rows = Ok n ↔
  Forall (λ row : dict, is_Some (row !! c)) rows ∧ n = bucket rows c v.
Proof.
  unfold bucket.
  revert n. induction rows as [|row rows IH]; intros n; simpl.
  - split; [by intros [= <-]|by intros [_ ->]].
  - destruct (strips_to c v row) as [b|e] eqn:Hb; simpl.
    + apply strips_to_Ok in Hb as [Hrow ->].
      destruct (sum_1_if _ rows) as [m|e] eqn:Hm; simpl.
      * pose proof (proj1 (IH m) eq_refl) as [Hrows ->].
        rewrite filter_cons. split.
        -- intros [= <-]. split; [by constructor|].
           case_bool_decide; case_decide; try done; simpl; lia.
        -- intros [_ ->]. f_equal.
           case_bool_decide; case_decide; try done; simpl; lia.
      * split; [done|]. intros [[_ Hrows]%Forall_cons _].
        pose proof (proj2 (IH _) (conj Hrows eq_refl)). congruence.
    + split; [done|]. intros [[Hrow _]%Forall_cons _].
      pose proof (proj2 (strips_to_Ok row _) (conj Hrow eq_refl)). congruence.
Qed.
End selector_facts.

Lemma lt_balance_trans a b bal :
  a ≤ b → lt_balance b bal = true → lt_balance a bal = true.
Proof. destruct bal; simpl; [done|]. rewrite !Z.ltb_lt. lia. Qed.

Lemma lt_balance_false_le a b bal :
  lt_balance a bal = true → lt_balance b bal = false → a < b.
Proof. destruct bal; simpl; [done|]. rewrite Z.ltb_lt, Z.ltb_ge. lia. Qed.

Lemma accept_iff rows c bal :
  (0 <? bucket rows c "0") && (bucket rows c "0" <? Z.of_nat (length rows))
  && (0 <? bucket rows c "1") && (bucket rows c "1" <? Z.of_nat (length rows))
  && lt_balance (imbalance rows c) bal = true
  ↔ usable rows c ∧ lt_balance (imbalance rows c) bal = true.
Proof. unfold usable. rewrite !andb_true_iff, !Z.ltb_lt. tauto. Qed.

Lemma best_split_loop_step rows c rest best0 bal0 r :
  best_split_loop rows (c :: rest) best0 bal0 = Ok r →
  Forall (λ row : dict, is_Some (row !! c)) rows
  ∧ if decide (usable rows c ∧ lt_balance (imbalance rows c) bal0 = true)
    then best_split_loop rows rest (Some c) (Fin (imbalance rows c)) = Ok r
    else best_split_loop rows rest best0 bal0 = Ok r.
Proof.
  simpl.
  destruct (sum_1_if (strips_to c "0") rows) as [n0|] eqn:H0; [|done].
  destruct (sum_1_if (strips_to c "1") rows) as [n1|] eqn:H1; [|done].
  apply sum_1_if_Ok in H0 as [Hcol ->]. apply sum_1_if_Ok in H1 as [_ ->].
  simpl. fold (imbalance rows c). intros Hloop. split; [done|].
  case_decide as Hacc.
  - apply accept_iff in Hacc. by rewrite Hacc in Hloop.
  - destruct (_ && _) eqn:Hcond in Hloop; [|done].
    by apply accept_iff in Hcond.
Qed.

Lemma best_split_loop_spec rows cls best0 bal0 r :
  best_split_loop rows cls best0 bal0 = Ok r →
  (r = best0
   ∧ ∀ g, g ∈ cls → usable rows g → lt_balance (imbalance rows g) bal0 = false)
  ∨ (∃ f, r = Some f ∧ first_most_balanced rows cls f
          ∧ lt_balance (imbalance rows f) bal0 = true).
Proof.
  revert best0 bal0. induction cls as [|c rest IH]; intros best0 bal0.
  - intros [= <-]. left. split; [done|]. by intros g ?%elem_of_nil.
  - intros [_ Hstep]%best_split_loop_step. case_decide as Hacc.
    + destruct Hacc as [Huse Hlt].
      apply IH in Hstep as [[-> Hrest]|(f & -> & (pre & post & -> & Hf & Hpre & Hpost) & Hfc)].
      * right. exists c. split_and!; [done| |done].
        exists [], rest. split_and!; [done|done|by intros g ?%elem_of_nil|].
        intros g Hg Hguse. specialize (Hrest g Hg Hguse).
        simpl in Hrest. apply Z.ltb_ge in Hrest. lia.
      * simpl in Hfc. apply Z.ltb_lt in Hfc.
        right. exists f. split_and!; [done| |].
        -- exists (c :: pre), post. split_and!; [done|done| |done].
           intros g [->|Hg]%elem_of_cons Hguse; [done|by apply Hpre].
        -- eapply lt_balance_trans; [|exact Hlt]. lia.
    + apply IH in Hstep as [[-> Hrest]|(f & -> & (pre & post & -> & Hf & Hpre & Hpost) & Hfc)].
      * left. split; [done|].
        intros g [->|Hg]%elem_of_cons Hguse; [|by apply Hrest].
        destruct (lt_balance _ _) eqn:Hlt; [|done]. by destruct Hacc.
      * right. exists f. split_and!; [done| |done].
        exists (c :: pre), post. split_and!; [done|done| |done].
        intros g [->|Hg]%elem_of_cons Hguse; [|by apply Hpre].
        eapply lt_balance_false_le; [done|].
        destruct (lt_balance (imbalance rows c) bal0) eqn:Hlt; [|done].
        by destruct Hacc.
Qed.

Lemma best_split_loop_total rows cls best0 bal0 :
  has_columns cls rows → ∃ r, best_split_loop rows cls best0 bal0 = Ok r.
Proof.
  revert best0 bal0. induction cls as [|c rest IH]; intros best0 bal0 Hcols.
  - by eexists.
  - assert (Forall (λ row : dict, is_Some (row !! c)) rows) as Hc.
    { eapply Forall_impl; [exact Hcols|]. intros row Hrow. apply Hrow. by left. }
    assert (has_columns rest rows) as Hrest.
    { eapply Forall_impl; [exact Hcols|]. intros row Hrow g Hg. apply Hrow. by right. }
    simpl.
    rewrite (proj2 (sum_1_if_Ok c "0" rows _) (conj Hc eq_refl)).
    rewrite (proj2 (sum_1_if_Ok c "1" rows _) (conj Hc eq_refl)).
    simpl. case_match; by apply IH.
Qed.

Lemma best_split_usable rows cls best :
  best_split rows cls = Ok (Some best) → usable rows best.
Proof.
  intros [[[=] _]|(f & [= <-] & (pre & post & _ & Huse & _) & _)]%best_split_loop_spec.
  done.
Qed.

(** ** The builder *)

Lemma TreeNode_init_answers {ref} q (l r : option ref) labels :
  TreeNode_init q l r (Some labels) = mkTreeNode q l r labels.
Proof. by destruct labels. Qed.

Lemma getitem_Some (row : dict) c v : row !! c = Some v → getitem row c = Ok v.
Proof. unfold getitem. by intros ->. Qed.

Lemma getitem_None (row : dict) c :
  row !! c = None → getitem row c = Raise (KeyError c).
Proof. unfold getitem. by intros ->. Qed.

Lemma comprehension_getitem_Ok c rows labels :
  comprehension (λ row, getitem row c) rows = Ok labels ↔
  Forall2 (λ (row : dict) v, row !! c = Some v) rows labels.
Proof.
  revert labels. induction rows as [|row rows IH]; intros labels; simpl.
  - split; [intros [= <-]; constructor|by intros ->%Forall2_nil_inv_l].
  - destruct (row !! c) as [v|] eqn:Hv;
      [rewrite (getitem_Some _ _ _ Hv)|rewrite (getitem_None _ _ Hv)]; simpl.
    + destruct (comprehension _ rows) as [ys|e]; simpl.
      * split.
        -- intros [= <-]. constructor; [done|]. by apply IH.
        -- intros (v' & ys' & Hv' & Hys' & ->)%Forall2_cons_inv_l.
           apply IH in Hys'. congruence.
      * split; [done|].
        intros (v' & ys' & _ & Hys' & ->)%Forall2_cons_inv_l.
        by apply IH in Hys'.
    + split; [done|].
      intros (v' & ys' & Hv' & _)%Forall2_cons_inv_l. congruence.
Qed.

Lemma comprehension_getitem_total c rows :
  Forall (λ row : dict, is_Some (row !! c)) rows →
  ∃ labels, comprehension (λ row, getitem row c) rows = Ok labels.
Proof.
  induction 1 as [|row rows [v Hv] _ [labels IH]]; simpl; [by eexists|].
  rewrite (getitem_Some _ _ _ Hv). simpl. rewrite IH. by eexists.
Qed.

Lemma leaf_of_rows_Ok rows label_col t :
  leaf_of_rows rows label_col = Ok t ↔
  ∃ labels, Forall2 (λ (row : dict) v, row !! label_col = Some v) rows labels
            ∧ t = Tree (mkTreeNode None None None labels).
Proof.
  unfold leaf_of_rows.
  destruct (comprehension _ rows) as [labels|e] eqn:Hlabels; simpl.
  - apply comprehension_getitem_Ok in Hlabels.
    rewrite TreeNode_init_answers. split.
    + intros [= <-]. by exists labels.
    + intros (labels' & Hlabels' & ->). do 3 f_equal.
      apply comprehension_getitem_Ok in Hlabels, Hlabels'. congruence.
  - split; [done|]. intros (labels' & Hlabels' & _).
    apply comprehension_getitem_Ok in Hlabels'. congruence.
Qed.

Lemma build_tree_Ok_inv rows cls label_col t :
  build_tree rows cls label_col = Ok t → build_step label_col rows cls t.
Proof.
  rewrite build_tree_eq. unfold build_tree_body.
  destruct rows as [|row0 rows']; [intros [= <-]; by constructor|].
  set (rows := row0 :: rows'). assert (rows ≠ []) as Hne by done. clearbody rows.
  destruct (all_same_values _ _) as [[]|]; simpl; [| |done].
  { intros (labels & ? & ->)%leaf_of_rows_Ok. by constructor. }
  destruct (best_split rows cls) as [[best|]|] eqn:Hbest; simpl; [| |done].
  2:{ intros (labels & ? & ->)%leaf_of_rows_Ok. by constructor. }
  destruct (negb _ && _) eqn:Hsplit.
  2:{ intros (labels & ? & ->)%leaf_of_rows_Ok. by constructor. }
  apply andb_true_iff in Hsplit as [Hcls%negb_true_iff%bool_decide_eq_false Hbt].
  destruct (comprehension_if (strips_to best "0") rows) as [ls|] eqn:Hls; [|done].
  destruct (comprehension_if (strips_to best "1") rows) as [rs|] eqn:Hrs; [|done].
  apply comprehension_if_Ok in Hls as [_ ->].
  apply comprehension_if_Ok in Hrs as [_ ->]. simpl.
  destruct (build_tree (filter (trims_to best "0") _) _ _) as [lt|] eqn:Hlt;
    simpl; [|done].
  destruct (build_tree (filter (trims_to best "1") _) _ _) as [rt|] eqn:Hrt;
    simpl; [|done].
  intros [= <-]. apply step_split; try done. by intros ->.
Qed.

(** Induction over the successful runs of [build_tree]. *)
Lemma build_tree_Ok_ind label_col (P : list dict → list string → tree → Prop) :
  (∀ cls, P [] cls (Tree (mkTreeNode None None None []))) →
  (∀ rows cls labels,
     rows ≠ [] →
     Forall2 (λ (row : dict) v, row !! label_col = Some v) rows labels →
     P rows cls (Tree (mkTreeNode None None None labels))) →
  (∀ rows cls best left_child right_child,
     rows ≠ [] → cls ≠ [] → best ≠ "" →
     best_split rows cls = Ok (Some best) →
     build_tree (filter (trims_to best "0") rows) (remaining cls best) label_col
       = Ok left_child →
     build_tree (filter (trims_to best "1") rows) (remaining cls best) label_col
       = Ok right_child →
     P (filter (trims_to best "0") rows) (remaining cls best) left_child →
     P (filter (trims_to best "1") rows) (remaining cls best) right_child →
     P rows cls
       (Tree (mkTreeNode (Some best) (Some left_child) (Some right_child) []))) →
  ∀ rows cls t, build_tree rows cls label_col = Ok t → P rows cls t.
Proof.
  intros Hempty Hleaf Hsplit rows cls.
  remember (length cls) as n eqn:Hn.
  revert rows cls Hn. induction (lt_wf n) as [n _ IH]. intros rows cls -> t Ht.
  destruct (build_tree_Ok_inv _ _ _ _ Ht)
    as [Hrows|labels ? ?|best lt rt ? ? ? Hbest Hlt Hrt];
    [by subst rows|by apply Hleaf|].
  assert (length (remaining cls best) < length cls)%nat as Hshorter.
  { apply (length_filter_lt _ _ best); [by eapply best_split_elem|]. by intros []. }
  apply Hsplit; try done; by eapply IH.
Qed.

(** *** Rows that carry every column never raise *)

Lemma comprehension_total {A B} (f : A → result B) l :
  Forall (λ x, ∃ y, f x = Ok y) l → ∃ ys, comprehension f l = Ok ys.
Proof.
  induction 1 as [|x l [y Hy] _ [ys IH]]; simpl; [by eexists|].
  rewrite Hy. simpl. rewrite IH. by eexists.
Qed.

Lemma comprehension_length {A B} (f : A → result B) l ys :
  comprehension f l = Ok ys → length ys = length l.
Proof.
  revert ys. induction l as [|x l IH]; intros ys; simpl; [by intros [= <-]|].
  destruct (f x); simpl; [|done].
  destruct (comprehension f l); simpl; [|done].
  intros [= <-]. simpl. f_equal. by apply IH.
Qed.

Lemma all_columns_equal_total (row : dict) first_row_values cols :
  (∀ i col, (i, col) ∈ cols →
     is_Some (row !! col) ∧ (i < length first_row_values)%nat) →
  ∃ b, all_columns_equal row first_row_values cols = Ok b.
Proof.
  induction cols as [|[i col] cols IH]; intros Hcols; simpl; [by eexists|].
  destruct (Hcols i col) as [[v Hv] [w Hw]%lookup_lt_is_Some_2]; [by left|].
  rewrite (getitem_Some _ _ _ Hv). simpl.
  unfold list_getitem. rewrite Hw. simpl.
  destruct (String.eqb v w); [|by eexists].
  apply IH. intros i' col' Hin. apply Hcols. by right.
Qed.

Lemma all_same_values_total rows col_names :
  has_columns col_names rows → ∃ b, all_same_values rows col_names = Ok b.
Proof.
  destruct rows as [|row0 rest]; intros Hcols; simpl; [by eexists|].
  apply Forall_cons in Hcols as [Hrow0 Hrest].
  destruct (comprehension_total (getitem row0) col_names) as [frv Hfrv].
  { apply Forall_forall. intros c [v Hv]%Hrow0. exists v. by apply getitem_Some. }
  rewrite Hfrv. simpl. apply comprehension_length in Hfrv.
  destruct (comprehension_total
              (λ row, all_columns_equal row frv (enumerate col_names)) rest)
    as [bs Hbs].
  { eapply Forall_impl; [exact Hrest|]. intros row Hrow.
    apply all_columns_equal_total. intros i col Hin. split.
    - apply Hrow. by eapply elem_of_zip_r.
    - apply elem_of_zip_l, elem_of_seq in Hin. lia. }
  rewrite Hbs. by eexists.
Qed.

Lemma has_columns_filter cols rows (P : dict → Prop) `{!∀ row, Decision (P row)} :
  has_columns cols rows → has_columns cols (filter P rows).
Proof.
  unfold has_columns. rewrite !Forall_forall.
  intros Hcols row [_ Hrow]%list_elem_of_filter. by apply Hcols.
Qed.

Lemma has_columns_sub cols cols' rows :
  cols' ⊆ cols → has_columns cols rows → has_columns cols' rows.
Proof.
  intros Hsub Hcols. eapply Forall_impl; [exact Hcols|].
  intros row Hrow c Hc. apply Hrow. by apply Hsub.
Qed.

Lemma has_column_elem cols rows c :
  c ∈ cols → has_columns cols rows → Forall (λ row : dict, is_Some (row !! c)) rows.
Proof. intros Hc Hcols. eapply Forall_impl; [exact Hcols|]. intros row Hrow. by apply Hrow. Qed.

Lemma leaf_of_rows_total rows label_col :
  Forall (λ row : dict, is_Some (row !! label_col)) rows →
  ∃ t, leaf_of_rows rows label_col = Ok t.
Proof.
  intros [labels Hlabels]%comprehension_getitem_total.
  unfold leaf_of_rows. rewrite Hlabels. by eexists.
Qed.

Lemma build_tree_total rows cls label_col :
  has_columns (label_col :: cls) rows →
  ∃ t, build_tree rows cls label_col = Ok t.
Proof.
  remember (length cls) as n eqn:Hn.
  revert rows cls Hn. induction (lt_wf n) as [n _ IH]. intros rows cls -> Hcols.
  rewrite build_tree_eq. unfold build_tree_body.
  destruct rows as [|row0 rows']; [by eexists|].
  set (rows := row0 :: rows') in *. clearbody rows.
  assert (Forall (λ row : dict, is_Some (row !! label_col)) rows) as Hlabel.
  { eapply has_column_elem; [|done]. by left. }
  assert (has_columns cls rows) as Hcls.
  { eapply has_columns_sub; [|done]. set_solver. }
  destruct (all_same_values_total _ _ Hcols) as [same ->]. simpl.
  destruct same; [by apply leaf_of_rows_total|].
  destruct (best_split_loop_total rows cls None Inf Hcls) as [best Hbest].
  fold (best_split rows cls) in Hbest. rewrite Hbest. simpl.
  destruct best as [best|]; [|by apply leaf_of_rows_total].
  destruct (negb _ && _); [|by apply leaf_of_rows_total].
  assert (best ∈ cls) as Hin by by eapply best_split_elem.
  assert (Forall (λ row : dict, is_Some (row !! best)) rows) as Hcol.
  { by eapply has_column_elem. }
  rewrite (proj2 (comprehension_if_Ok best "0" rows _) (conj Hcol eq_refl)).
  rewrite (proj2 (comprehension_if_Ok best "1" rows _) (conj Hcol eq_refl)).
  simpl.
  assert (length (remaining cls best) < length cls)%nat as Hshorter.
  { apply (length_filter_lt _ _ best); [done|]. by intros []. }
  assert (∀ rows', has_columns (label_col :: cls) rows' →
                   has_columns (label_col :: remaining cls best) rows') as Hsub.
  { intros rows''. apply has_columns_sub. unfold remaining.
    intros c [->|[_ Hc]%list_elem_of_filter]%elem_of_cons; [by left|by right]. }
  edestruct (IH _ Hshorter (filter (trims_to best "0") rows)) as [lt ->];
    [done|by apply Hsub, has_columns_filter|].
  edestruct (IH _ Hshorter (filter (trims_to best "1") rows)) as [rt ->];
    [done|by apply Hsub, has_columns_filter|].
  simpl. by eexists.
Qed.

(** *** Depth, paths and leaves *)

Lemma depth_bound rows cls label_col t :
  build_tree rows cls label_col = Ok t → (depth t ≤ length cls + 1)%nat.
Proof.
  revert rows cls t. apply build_tree_Ok_ind.
  - intros cls. simpl. lia.
  - intros rows cls labels _ _. simpl. lia.
  - intros rows cls best lt rt _ _ _ Hbest%best_split_elem _ _ IHl IHr.
    assert (length (remaining cls best) < length cls)%nat.
    { apply (length_filter_lt _ _ best); [done|]. by intros []. }
    simpl. lia.
Qed.

Lemma paths_distinct rows cls label_col t :
  build_tree rows cls label_col = Ok t →
  Forall (λ p, NoDup p ∧ p ⊆ cls) (paths t).
Proof.
  revert rows cls t. apply build_tree_Ok_ind.
  - intros cls. simpl. repeat constructor. set_solver.
  - intros rows cls labels _ _. simpl. repeat constructor. set_solver.
  - intros rows cls best lt rt _ _ _ Hbest%best_split_elem _ _ IHl IHr.
    cbn [paths left right question from_option option_list].
    apply Forall_fmap, Forall_app. unfold remaining in *.
    split; (eapply Forall_impl; [eassumption|]); simpl;
      intros p [Hnodup Hsub]; (split; [constructor; [|done]|]).
    + by intros [? _]%Hsub%list_elem_of_filter.
    + intros q [->|[_ ?]%Hsub%list_elem_of_filter]%elem_of_cons; done.
    + by intros [? _]%Hsub%list_elem_of_filter.
    + intros q [->|[_ ?]%Hsub%list_elem_of_filter]%elem_of_cons; done.
Qed.

Lemma leaves_nonempty rows cls label_col t :
  build_tree rows cls label_col = Ok t →
  rows ≠ [] → Forall (λ a, a ≠ []) (leaves t).
Proof.
  revert rows cls t.
  apply (build_tree_Ok_ind label_col
           (λ rows _ t, rows ≠ [] → Forall (λ a, a ≠ []) (leaves t))).
  - done.
  - intros rows cls labels Hne Hlabels _. simpl. constructor; [|done].
    intros ->. by apply Forall2_nil_inv_r in Hlabels.
  - intros rows cls best lt rt _ _ _ [[Hl _] [Hr _]]%best_split_usable _ _ IHl IHr _.
    cbn [leaves left right from_option]. unfold bucket in *. apply Forall_app.
    split; [apply IHl|apply IHr]; intros Heq; rewrite Heq in *; simpl in *; lia.
Qed.

(** The empty leaf only comes from the empty table, and then it is the whole
    tree. *)
Lemma empty_leaf_only_from_empty_rows rows cls label_col t :
  build_tree rows cls label_col = Ok t →
  [] ∈ leaves t →
  rows = [] ∧ t = Tree (mkTreeNode None None None []).
Proof.
  intros Ht Hin. destruct rows as [|row rows].
  - rewrite build_tree_eq in Ht. by injection Ht as <-.
  - eapply leaves_nonempty in Ht; [|done].
    by eapply Forall_forall in Ht.
Qed.

(** ** The game engine *)

Lemma ask_yes_no_reply prompt line answer h lines out :
  reply line = Some answer →
  ask_yes_no prompt (mkWorld h (line :: lines) out)
  = (Ok answer, mkWorld h lines (out ++ [asked prompt])).
Proof.
  unfold reply, ask_yes_no. cbn [stdin stdout heap ask_yes_no_loop].
  destruct (str_in _ ["yes"; "y"]); [by intros [= <-]|].
  destruct (str_in _ ["no"; "n"]); [by intros [= <-]|done].
Qed.

Lemma ask_yes_no_retry prompt line h lines out :
  reply line = None →
  ask_yes_no prompt (mkWorld h (line :: lines) out)
  = ask_yes_no prompt (mkWorld h lines (out ++ [asked prompt; Print msg_retry])).
Proof.
  unfold reply, ask_yes_no. cbn [stdin stdout heap ask_yes_no_loop].
  destruct (str_in _ ["yes"; "y"]); [done|].
  destruct (str_in _ ["no"; "n"]); [done|].
  intros _. by rewrite <-(assoc_L (++)).
Qed.

Lemma ask_yes_no_eof prompt h out :
  ask_yes_no prompt (mkWorld h [] out)
  = (Raise EOFError, mkWorld h [] (out ++ [asked prompt])).
Proof. done. Qed.

(** Whatever is typed, the prompt has been shown when the call ends. *)
Lemma ask_yes_no_asks prompt w r w' :
  ask_yes_no prompt w = (r, w') → asked prompt ∈ stdout w'.
Proof.
  unfold ask_yes_no.
  destruct (ask_yes_no_loop _ _ _) as [r' [lines out]] eqn:Hloop.
  intros [= <- <-]. cbn [stdout].
  destruct (stdin w) as [|line lines']; cbn [ask_yes_no_loop] in Hloop.
  - injection Hloop as <- <- <-. set_solver.
  - repeat case_match; try (injection Hloop as <- <- <-; set_solver).
    apply (ask_yes_no_loop_evolves (λ _, True)) in Hloop
      as (_ & new & -> & _); [|done..].
    unfold asked. set_solver.
Qed.

Lemma ask_yes_no_loop_consumes prompt lines out answer lines' out' :
  ask_yes_no_loop prompt lines out = (Ok answer, (lines', out')) →
  ∃ retries line,
    lines = retries ++ line :: lines'
    ∧ Forall (λ l, reply l = None) retries ∧ reply line = Some answer.
Proof.
  revert out. induction lines as [|line lines IH]; intros out; [done|].
  cbn [ask_yes_no_loop]. unfold reply at 2.
  destruct (str_in _ ["yes"; "y"]) eqn:Hyes.
  { intros [= <- <- <-]. exists [], line. unfold reply. by rewrite Hyes. }
  destruct (str_in _ ["no"; "n"]) eqn:Hno.
  { intros [= <- <- <-]. exists [], line. unfold reply. by rewrite Hyes, Hno. }
  intros (retries & line' & -> & Hretries & Hline')%IH.
  exists (line :: retries), line'. split_and!; [done| |done].
  constructor; [|done]. unfold reply. by rewrite Hyes, Hno.
Qed.

(** The counter that the loop hands over is the number of yes/no replies it
    consumed. *)
Lemma descend_counts node guesses w node' guesses' w' :
  descend node guesses w = (Ok (node', guesses'), w') →
  ∃ typed, stdin w = typed ++ stdin w'
           ∧ guesses' = guesses + Z.of_nat (length (omap reply typed)).
Proof.
  remember (length (stdin w)) as n eqn:Hn.
  revert node guesses w Hn. induction (lt_wf n) as [n _ IH].
  intros node guesses w ->. rewrite descend_eq. unfold descend_body.
  destruct (deref (heap w) node) as [self|]; [|done].
  destruct (is_leaf self).
  { intros [= <- <- <-]. exists []. split; [done|]. simpl. lia. }
  destruct (ask_yes_no _ w) as [[answer|e] w1] eqn:Hask; [|done].
  intros Hrec. pose proof (ask_yes_no_shorter _ _ _ _ Hask) as Hshorter.
  destruct (IH _ Hshorter _ _ _ eq_refl Hrec) as (typed & Htyped & ->).
  unfold ask_yes_no in Hask.
  destruct (ask_yes_no_loop _ _ _) as [r [lines out]] eqn:Hloop.
  injection Hask as -> <-. cbn [stdin] in *.
  apply ask_yes_no_loop_consumes in Hloop
    as (retries & line & -> & Hretries & Hline).
  exists (retries ++ line :: typed). split.
  { by rewrite Htyped, <-(assoc_L (++)). }
  rewrite omap_app. cbn [omap list_omap]. rewrite Hline.
  assert (omap reply retries = []) as ->.
  { clear -Hretries. induction Hretries as [|l ls Hl _ IHl]; [done|].
    cbn [omap list_omap]. by rewrite Hl. }
  simpl. lia.
Qed.

Lemma main_loop_evolves tree w r w' :
  main_loop tree w = (r, w') → evolves (λ _, True) w w'.
Proof.
  remember (length (stdin w)) as n eqn:Hn.
  revert w Hn. induction (lt_wf n) as [n _ IH]. intros w ->.
  rewrite main_loop_eq. unfold main_loop_body.
  destruct (play_game tree w) as [[[]|e] w1] eqn:Hplay;
    apply (play_game_evolves (λ _, True)) in Hplay; try done.
  2:{ by intros [= <- <-]. }
  destruct (ask_yes_no _ w1) as [[[]|e] w2] eqn:Hask.
  - intros Hrec. etrans; [done|].
    etrans; [by eapply (ask_yes_no_evolves (λ _, True))|].
    eapply IH; [|done|exact Hrec].
    apply ask_yes_no_shorter in Hask.
    destruct Hplay as (_ & Hi%suffix_length & _). lia.
  - intros ?%(print_evolves (λ _, True)); [|done]. etrans; [done|].
    etrans; [by eapply (ask_yes_no_evolves (λ _, True))|done].
  - intros [= <- <-]. etrans; [done|].
    by eapply (ask_yes_no_evolves (λ _, True)).
Qed.

Lemma is_leaf_iff_answers {ref} (self : TreeNode ref) :
  is_leaf self = true ↔ answers self ≠ [].
Proof. unfold is_leaf. by destruct (answers self). Qed.

(** Whatever the store and the typed lines, [play_game] never prints
    [msg_no_guess]: its last branch is unreachable. *)
Lemma play_game_never_no_guess tree w :
  ∃ out, stdout (play_game tree w).2 = stdout w ++ out
         ∧ Forall (λ e, e ≠ Print msg_no_guess) out.
Proof.
  destruct (play_game tree w) as [r w'] eqn:Hplay.
  by apply (play_game_evolves (λ e, e ≠ Print msg_no_guess)) in Hplay
    as (_ & _ & ?).
Qed.

Lemma play_game_at_leaf tree w node guesses w1 leaf :
  descend tree 0 (print msg_intro w).2 = (Ok (node, guesses), w1) →
  deref (heap w1) node = Ok leaf →
  answers leaf ≠ [] →
  play_game tree w = confirm (answers leaf) guesses w1.
Proof.
  intros Hdesc Hleaf Hne. unfold play_game, mbind, IO_bind.
  cbn [print snd] in *. rewrite Hdesc, Hleaf.
  destruct (answers leaf) as [|element [|element' rest]]; [done| |done].
  unfold confirm, mbind, IO_bind. cbn [ask_each]. unfold mbind, IO_bind.
  by destruct (ask_yes_no _ w1) as [[[]|e] w2].
Qed.

Lemma ask_each_denied elements denied guesses h rest out :
  Forall (λ line, reply line = Some false) denied →
  (length denied ≤ length elements)%nat →
  ask_each elements guesses (mkWorld h (denied ++ rest) out)
  = ask_each (drop (length denied) elements)
      (guesses + Z.of_nat (length denied))
      (mkWorld h rest
         (out ++ (asked ∘ msg_guess <$> take (length denied) elements))).
Proof.
  intros Hdenied. revert elements guesses out.
  induction Hdenied as [|line denied Hline _ IH]; intros elements guesses out Hlen.
  - cbn [length drop take fmap list_fmap app]. rewrite app_nil_r.
    by replace (guesses + Z.of_nat 0) with guesses by lia.
  - destruct elements as [|element elements]; [simpl in Hlen; lia|].
    cbn [ask_each app]. unfold mbind, IO_bind at 1.
    rewrite (ask_yes_no_reply _ _ _ _ _ _ Hline).
    rewrite IH by (simpl in Hlen; lia).
    cbn [length drop take fmap list_fmap]. rewrite <-(assoc_L (++)).
    by replace (guesses + 1 + Z.of_nat (length denied))
      with (guesses + Z.of_nat (S (length denied))) by lia.
Qed.

(** ** Induction on trees *)

Lemma tree_induction (P : tree → Prop) :
  (∀ n, (∀ c, left n = Some c → P c) → (∀ c, right n = Some c → P c) →
        P (Tree n)) →
  ∀ t, P t.
Proof.
  intros Hnode. fix IH 1. intros [[q l r a]].
  apply Hnode; simpl.
  - destruct l as [c|]; intros c' [= <-]. apply IH.
  - destruct r as [c|]; intros c' [= <-]. apply IH.
Qed.

(** ** read_csv *)

Lemma list_getitem_Some {A} (l : list A) i x :
  l !! i = Some x → list_getitem l i = Ok x.
Proof. unfold list_getitem. by intros ->. Qed.

Lemma list_getitem_None {A} (l : list A) i :
  l !! i = None → list_getitem l i = Raise IndexError.
Proof. unfold list_getitem. by intros ->. Qed.

Lemma list_getitem_Ok {A} (l : list A) i x :
  list_getitem l i = Ok x ↔ l !! i = Some x.
Proof.
  unfold list_getitem. destruct (l !! i); split; intros; by simplify_eq.
Qed.

Lemma list_getitem_Raise {A} (l : list A) i e :
  list_getitem l i = Raise e → e = IndexError ∧ (length l ≤ i)%nat.
Proof.
  unfold list_getitem. destruct (l !! i) eqn:Hi; [done|].
  intros [= <-]. split; [done|]. by apply lookup_ge_None.
Qed.

(** One run of the dictionary comprehension over the columns [s .. s+n-1]. *)
Lemma row_dict_loop_Ok header row s n d0 d :
  row_dict_loop header row (seq s n) d0 = Ok d →
  (∀ i, (s ≤ i < s + n)%nat → is_Some (header !! i) ∧ is_Some (row !! i))
  ∧ (∀ k, (∀ i, (s ≤ i < s + n)%nat → header !! i ≠ Some k) →
          d !! k = d0 !! k)
  ∧ (∀ i k, (s ≤ i < s + n)%nat → header !! i = Some k →
            (∀ i', (i < i' < s + n)%nat → header !! i' ≠ Some k) →
            d !! k = row !! i).
Proof.
  revert s d0. induction n as [|n IH]; intros s d0; cbn [seq row_dict_loop].
  { intros [= <-]. split_and!; [intros; lia|done|intros; lia]. }
  destruct (list_getitem header s) as [k0|] eqn:Hk0; [|done].
  destruct (list_getitem row s) as [v0|] eqn:Hv0; [|done].
  apply list_getitem_Ok in Hk0, Hv0. simpl.
  intros (Hrange & Hkeep & Hlast)%IH. split_and!.
  - intros i Hi. destruct (decide (i = s)) as [->|]; [by eauto|].
    apply Hrange. lia.
  - intros k Hk. rewrite Hkeep by (intros i Hi; apply Hk; lia).
    apply lookup_insert_ne. intros ->. by apply (Hk s); [lia|].
  - intros i k Hi Hik Hlater. destruct (decide (i = s)) as [->|].
    + rewrite Hkeep by (intros i' Hi'; apply Hlater; lia).
      simplify_eq. by rewrite lookup_insert_eq.
    + apply Hlast; [lia|done|]. intros i' Hi'. apply Hlater. lia.
Qed.

Lemma row_dict_loop_total header row s n d0 :
  (s + n ≤ length header)%nat → (s + n ≤ length row)%nat →
  ∃ d, row_dict_loop header row (seq s n) d0 = Ok d.
Proof.
  revert s d0. induction n as [|n IH]; intros s d0 Hh Hr;
    cbn [seq row_dict_loop]; [by eexists|].
  destruct (lookup_lt_is_Some_2 header s) as [k0 Hk0]; [lia|].
  destruct (lookup_lt_is_Some_2 row s) as [v0 Hv0]; [lia|].
  rewrite (list_getitem_Some _ _ _ Hk0), (list_getitem_Some _ _ _ Hv0). simpl.
  apply IH; lia.
Qed.

Lemma row_dict_loop_Raise header row s n d0 e :
  (s + n ≤ length header)%nat →
  row_dict_loop header row (seq s n) d0 = Raise e →
  e = IndexError ∧ (length row < s + n)%nat.
Proof.
  revert s d0. induction n as [|n IH]; intros s d0 Hh;
    cbn [seq row_dict_loop]; [done|].
  destruct (lookup_lt_is_Some_2 header s) as [k0 Hk0]; [lia|].
  rewrite (list_getitem_Some _ _ _ Hk0). simpl.
  destruct (list_getitem row s) as [v0|e'] eqn:Hv0; simpl.
  - intros [-> ?]%IH; [|lia]. split; [done|lia].
  - intros [= <-]. apply list_getitem_Raise in Hv0 as [-> ?]. split; [done|lia].
Qed.

Lemma row_dict_of_Ok_length header row d :
  row_dict_of header row = Ok d → (length header ≤ length row)%nat.
Proof.
  intros (Hrange & _)%row_dict_loop_Ok.
  destruct (decide (length header = 0)%nat) as [->|]; [lia|].
  destruct (Hrange (length header - 1)%nat) as [_ Hrow%lookup_lt_is_Some_1]; lia.
Qed.

(** The last column called [k], if there is one. *)
Lemma last_column (header : list string) k :
  k ∈ header →
  ∃ i, header !! i = Some k ∧ ∀ i', (i < i')%nat → header !! i' ≠ Some k.
Proof.
  induction header as [|k0 header IH]; [by intros ?%elem_of_nil|].
  intros Hin. destruct (decide (k ∈ header)) as [Hk|Hk].
  - destruct (IH Hk) as (i & Hi & Hlast). exists (S i). split; [done|].
    intros [|i'] ?; [lia|]. apply Hlast. lia.
  - apply elem_of_cons in Hin as [->|]; [|done]. exists 0%nat. split; [done|].
    intros [|i'] ? Hi'; [lia|]. simpl in Hi'.
    by apply list_elem_of_lookup_2 in Hi'.
Qed.

Lemma row_dict_of_keys header row d k :
  row_dict_of header row = Ok d → (is_Some (d !! k) ↔ k ∈ header).
Proof.
  intros (Hrange & Hkeep & Hlast)%row_dict_loop_Ok. split.
  - intros Hk. destruct (decide (k ∈ header)) as [|Hnot]; [done|].
    rewrite Hkeep, lookup_empty in Hk; [by destruct Hk|].
    intros i _ Hi. by apply list_elem_of_lookup_2 in Hi.
  - intros (i & Hi & Hlater)%last_column.
    assert (i < length header)%nat by by eapply lookup_lt_Some.
    rewrite (Hlast i k); [by apply Hrange; lia|lia|done|].
    intros i' ?. apply Hlater. lia.
Qed.

Lemma read_csv_Ok records rows features label_col :
  read_csv records = Ok (rows, features, label_col) ↔
  ∃ data, records = (label_col :: features) :: data
          ∧ comprehension (row_dict_of (label_col :: features)) data = Ok rows.
Proof.
  unfold read_csv. destruct records as [|header data].
  { split; [done|]. by intros (? & ? & _). }
  cbn [list_getitem lookup list_lookup mbind result_bind drop].
  destruct header as [|label features'].
  { split; [done|]. by intros (? & ? & _). }
  cbn [list_getitem lookup list_lookup mbind result_bind drop].
  rewrite !drop_0.
  destruct (comprehension (row_dict_of _) data) as [ds|e] eqn:Hds; simpl.
  - split.
    + intros [= <- <- <-]. by exists data.
    + intros (data' & [= <- <- <-] & Hds'). congruence.
  - split; [done|]. intros (data' & [= <- <- <-] & Hds'). congruence.
Qed.

Lemma comprehension_Ok_Forall2 {A B} (f : A → result B) l ys :
  comprehension f l = Ok ys ↔ Forall2 (λ x y, f x = Ok y) l ys.
Proof.
  revert ys. induction l as [|x l IH]; intros ys; simpl.
  - split; [intros [= <-]; constructor|by intros ->%Forall2_nil_inv_l].
  - destruct (f x) as [y|e] eqn:Hy; simpl.
    + destruct (comprehension f l) as [ys'|e]; simpl.
      * split.
        -- intros [= <-]. constructor; [done|]. by apply IH.
        -- intros (y' & ys'' & Hy' & Hys' & ->)%Forall2_cons_inv_l.
           apply IH in Hys'. congruence.
      * split; [done|].
        intros (y' & ys'' & _ & Hys' & ->)%Forall2_cons_inv_l.
        by apply IH in Hys'.
    + split; [done|].
      intros (y' & ys'' & Hy' & _)%Forall2_cons_inv_l. congruence.
Qed.

Lemma comprehension_Raise {A B} (f : A → result B) l e :
  comprehension f l = Raise e → ∃ x, x ∈ l ∧ f x = Raise e.
Proof.
  induction l as [|x l IH]; simpl; [done|].
  destruct (f x) as [y|e'] eqn:Hy; simpl.
  - destruct (comprehension f l) as [ys|e'']; simpl; [done|].
    intros [= <-]. destruct IH as (x' & ? & ?); [done|].
    exists x'. split; [by right|done].
  - intros [= <-]. exists x. split; [by left|done].
Qed.

Lemma read_csv_has_columns records rows features label_col :
  read_csv records = Ok (rows, features, label_col) →
  has_columns (label_col :: features) rows.
Proof.
  intros (data & -> & Hrows%comprehension_Ok_Forall2)%read_csv_Ok.
  unfold has_columns. apply Forall_forall. intros d Hd c Hc.
  apply list_elem_of_lookup in Hd as [j Hj].
  destruct (Forall2_lookup_r _ _ _ _ _ Hrows Hj) as (r & _ & Hr).
  apply (row_dict_of_keys _ _ _ c) in Hr. by apply Hr.
Qed.

(** ** all_same_values *)

Lemma all_columns_equal_spec (row row0 : dict) first_row_values cs s :
  (∀ i c, cs !! i = Some c →
     ∃ v, first_row_values !! (s + i)%nat = Some v ∧ row0 !! c = Some v) →
  (∀ c, c ∈ cs → is_Some (row !! c)) →
  ∃ b, all_columns_equal row first_row_values (zip (seq s (length cs)) cs) = Ok b
       ∧ (b = true ↔ Forall (λ c, row !! c = row0 !! c) cs).
Proof.
  revert s. induction cs as [|c cs IH]; intros s Hfirst Hrow.
  { exists true. split; [done|]. split; [constructor|done]. }
  cbn [length seq zip zip_with all_columns_equal].
  destruct (Hrow c) as [v Hv]; [by left|].
  destruct (Hfirst 0%nat c) as (v0 & Hv0 & Hc0); [done|].
  rewrite Nat.add_0_r in Hv0.
  rewrite (getitem_Some _ _ _ Hv). simpl.
  rewrite (list_getitem_Some _ _ _ Hv0). simpl.
  destruct (String.eqb_spec v v0) as [->|Hne].
  - destruct (IH (S s)) as (b & -> & Hb).
    { intros i c' Hi. destruct (Hfirst (S i) c') as (v' & Hv' & Hc'); [done|].
      exists v'. split; [|done]. by rewrite <-Nat.add_succ_comm in Hv'. }
    { intros c' Hc'. apply Hrow. by right. }
    exists b. split; [done|]. rewrite Hb, Forall_cons. split; [|by intros [_ ?]].
    intros ?. split; [congruence|done].
  - exists false. split; [done|]. split; [done|].
    intros [Hc _]%Forall_cons. congruence.
Qed.

Lemma all_same_values_spec row0 rest cols :
  has_columns cols (row0 :: rest) →
  ∃ b, all_same_values (row0 :: rest) cols = Ok b
       ∧ (b = true ↔
          Forall (λ row : dict, Forall (λ c, row !! c = row0 !! c) cols) rest).
Proof.
  intros [Hrow0 Hrest]%Forall_cons. cbn [all_same_values].
  destruct (comprehension_total (getitem row0) cols) as [frv Hfrv].
  { apply Forall_forall. intros c [v Hv]%Hrow0. exists v. by apply getitem_Some. }
  rewrite Hfrv. simpl. apply comprehension_Ok_Forall2 in Hfrv.
  assert (∀ row, (∀ c, c ∈ cols → is_Some (row !! c)) →
            ∃ b, all_columns_equal row frv (enumerate cols) = Ok b
                 ∧ (b = true ↔ Forall (λ c, row !! c = row0 !! c) cols)) as Hrow.
  { intros row Hrow. apply (all_columns_equal_spec row row0 frv cols 0); [|done].
    intros i c Hi. destruct (Forall2_lookup_l _ _ _ _ _ Hfrv Hi) as (v & Hv & Hget).
    exists v. split; [done|]. unfold getitem in Hget.
    destruct (row0 !! c); by simplify_eq. }
  clear Hfrv. induction Hrest as [|row rest Hhas _ IH]; simpl.
  { exists true. split; [done|]. split; [constructor|done]. }
  destruct (Hrow row Hhas) as (b & -> & Hb). simpl.
  destruct IH as (b' & Hb' & Hall).
  destruct (comprehension _ rest) as [bs|]; [|done]. simpl in *.
  injection Hb' as <-. eexists. split; [done|].
  cbn [forallb]. rewrite andb_true_iff, Forall_cons, Hall. cbv [id].
  by rewrite Hb.
Qed.

(** ** The builder: unsplittable rows, shapes, labels *)

Lemma labels_of_total label_col rows :
  Forall (λ row : dict, is_Some (row !! label_col)) rows →
  ∃ labels, labels_of label_col rows labels.
Proof.
  induction 1 as [|row rows [v Hv] _ [labels IH]].
  - exists []. constructor.
  - exists (v :: labels). by constructor.
Qed.

Lemma labels_of_inj label_col rows labels labels' :
  labels_of label_col rows labels → labels_of label_col rows labels' →
  labels = labels'.
Proof.
  intros H. revert labels'. induction H as [|?????? IH]; intros labels' H'.
  - by apply Forall2_nil_inv_l in H'.
  - apply Forall2_cons_inv_l in H' as (? & ? & ? & ? & ->).
    f_equal; [congruence|]. by apply IH.
Qed.

Lemma trims_to_disjoint c (row : dict) :
  trims_to c "0" row → trims_to c "1" row → False.
Proof. unfold trims_to. intros ->. done. Qed.

Lemma bucket_positive_filter rows c v :
  0 < bucket rows c v → filter (trims_to c v) rows ≠ [].
Proof. unfold bucket. intros ? Heq. rewrite Heq in *. simpl in *. lia. Qed.

Lemma built_shape_of_build_tree rows cls label_col t :
  build_tree rows cls label_col = Ok t → rows ≠ [] → built_shape t.
Proof.
  revert rows cls t.
  apply (build_tree_Ok_ind label_col (λ rows _ t, rows ≠ [] → built_shape t)).
  - done.
  - intros rows cls labels Hne Hlabels _. simpl. intros ->.
    by apply Forall2_nil_inv_r in Hlabels.
  - intros rows cls best lt rt _ _ _ [[Hl _] [Hr _]]%best_split_usable _ _ IHl IHr _.
    simpl. split_and!; [done|..].
    + by apply IHl, bucket_positive_filter.
    + by apply IHr, bucket_positive_filter.
Qed.

Lemma built_shape_proper t : built_shape t → proper t.
Proof.
  induction t as [n IHl IHr] using tree_induction.
  destruct n as [q l r a]. simpl in *.
  destruct q, l as [lt|], r as [rt|]; try done.
  - intros (_ & Hl & Hr). right. split; [by eapply IHl|by eapply IHr].
  - intros Ha. left. unfold is_leaf. simpl. by destruct a.
Qed.

Lemma labels_of_filter label_col rows labels (P : dict → Prop)
    `{!∀ row, Decision (P row)} :
  labels_of label_col rows labels →
  ∃ sub, labels_of label_col (filter P rows) sub.
Proof.
  induction 1 as [|row v rows labels Hv _ [sub IH]].
  - exists []. constructor.
  - rewrite filter_cons. case_decide; [|by exists sub].
    exists (v :: sub). by constructor.
Qed.

Lemma labels_of_buckets label_col c rows labels l0 l1 :
  labels_of label_col rows labels →
  labels_of label_col (filter (trims_to c "0") rows) l0 →
  labels_of label_col (filter (trims_to c "1") rows) l1 →
  l0 ++ l1 ⊆+ labels
  ∧ (Forall (λ row, trims_to c "0" row ∨ trims_to c "1" row) rows →
     l0 ++ l1 ≡ₚ labels).
Proof.
  intros Hlabels. revert l0 l1.
  induction Hlabels as [|row v rows labels Hv _ IH]; intros l0 l1.
  { intros ->%Forall2_nil_inv_l ->%Forall2_nil_inv_l. done. }
  rewrite !filter_cons.
  destruct (decide (trims_to c "0" row)) as [H0|H0];
    destruct (decide (trims_to c "1" row)) as [H1|H1].
  - by destruct (trims_to_disjoint c row).
  - intros (v' & l0' & Hv' & Hl0 & ->)%Forall2_cons_inv_l Hl1.
    assert (v' = v) as -> by congruence.
    destruct (IH _ _ Hl0 Hl1) as [Hsub Hperm]. split.
    + by apply submseteq_skip.
    + intros [_ ?]%Forall_cons. simpl. f_equiv. by apply Hperm.
  - intros Hl0 (v' & l1' & Hv' & Hl1 & ->)%Forall2_cons_inv_l.
    assert (v' = v) as -> by congruence.
    destruct (IH _ _ Hl0 Hl1) as [Hsub Hperm]. split.
    + rewrite <-Permutation_middle. by apply submseteq_skip.
    + intros [_ ?]%Forall_cons. rewrite <-Permutation_middle.
      f_equiv. by apply Hperm.
  - intros Hl0 Hl1. destruct (IH _ _ Hl0 Hl1) as [Hsub Hperm]. split.
    + by apply submseteq_cons.
    + intros [[?|?] _]%Forall_cons; done.
Qed.

Lemma binary_step cls rows best (P : dict → Prop) `{!∀ row, Decision (P row)} :
  binary cls rows → binary (remaining cls best) (filter P rows).
Proof.
  unfold binary. rewrite !Forall_forall.
  intros Hbin row [_ Hrow]%list_elem_of_filter c [_ Hc]%list_elem_of_filter.
  by apply Hbin.
Qed.

Lemma leaves_conserve rows cls label_col t :
  build_tree rows cls label_col = Ok t →
  ∀ labels, labels_of label_col rows labels →
    concat (leaves t) ⊆+ labels
    ∧ (binary cls rows → concat (leaves t) ≡ₚ labels).
Proof.
  revert rows cls t.
  apply (build_tree_Ok_ind label_col (λ rows cls t,
    ∀ labels, labels_of label_col rows labels →
      concat (leaves t) ⊆+ labels
      ∧ (binary cls rows → concat (leaves t) ≡ₚ labels))).
  - intros cls labels ->%Forall2_nil_inv_l. done.
  - intros rows cls labels0 _ Hlabels0 labels Hlabels.
    rewrite (labels_of_inj _ _ _ _ Hlabels Hlabels0). simpl.
    by rewrite app_nil_r.
  - intros rows cls best lt rt _ _ _ Hbest%best_split_elem _ _ IHl IHr
      labels Hlabels.
    cbn [leaves left right from_option]. rewrite concat_app.
    destruct (labels_of_filter _ _ _ (trims_to best "0") Hlabels) as [l0 Hl0].
    destruct (labels_of_filter _ _ _ (trims_to best "1") Hlabels) as [l1 Hl1].
    destruct (IHl _ Hl0) as [Hsubl Hperml], (IHr _ Hl1) as [Hsubr Hpermr].
    destruct (labels_of_buckets _ best _ _ _ _ Hlabels Hl0 Hl1) as [Hsub Hperm].
    split.
    + etrans; [|exact Hsub]. by apply submseteq_app.
    + intros Hbin. rewrite Hperml, Hpermr by by apply binary_step.
      apply Hperm. eapply Forall_impl; [exact Hbin|].
      intros row Hrow. by apply Hrow.
Qed.

Lemma walk_finds rows cls label_col t :
  build_tree rows cls label_col = Ok t →
  ∀ (row : dict) v,
    row ∈ rows → row !! label_col = Some v →
    (∀ c, c ∈ cls → trims_to c "0" row ∨ trims_to c "1" row) →
    ∃ steps answers,
      walk t row = Some (steps, answers) ∧ v ∈ answers
      ∧ (length steps ≤ length cls)%nat.
Proof.
  revert rows cls t.
  apply (build_tree_Ok_ind label_col (λ rows cls t,
    ∀ (row : dict) v,
      row ∈ rows → row !! label_col = Some v →
      (∀ c, c ∈ cls → trims_to c "0" row ∨ trims_to c "1" row) →
      ∃ steps answers,
        walk t row = Some (steps, answers) ∧ v ∈ answers
        ∧ (length steps ≤ length cls)%nat)).
  - by intros cls row v ?%elem_of_nil.
  - intros rows cls labels Hne Hlabels row v Hrow Hv _.
    apply list_elem_of_lookup in Hrow as [j Hj].
    destruct (Forall2_lookup_l _ _ _ _ _ Hlabels Hj) as (v' & Hv' & Hrv).
    assert (v' = v) as -> by congruence.
    exists [], labels. cbn [walk is_leaf answers].
    destruct labels; [done|]. split_and!; [done| |simpl; lia].
    by eapply list_elem_of_lookup_2.
  - intros rows cls best lt rt _ _ _ Hbest%best_split_elem _ _ IHl IHr
      row v Hrow Hv Hbin.
    assert (length (remaining cls best) < length cls)%nat as Hshorter.
    { apply (length_filter_lt _ _ best); [done|]. by intros []. }
    assert (∀ c, c ∈ remaining cls best →
                 trims_to c "0" row ∨ trims_to c "1" row) as Hbin'.
    { intros c [_ Hc]%list_elem_of_filter. by apply Hbin. }
    cbn [walk is_leaf answers question left right].
    destruct (decide (trims_to best "1" row)) as [H1|H1].
    + destruct (IHr row v) as (steps & answers & -> & ? & ?);
        [by apply list_elem_of_filter|done|done|].
      exists ((best, true) :: steps), answers.
      split_and!; [done..|simpl; lia].
    + destruct (Hbin best Hbest) as [H0|?]; [|done].
      rewrite decide_True by done.
      destruct (IHl row v) as (steps & answers & -> & ? & ?);
        [by apply list_elem_of_filter|done|done|].
      exists ((best, false) :: steps), answers.
      split_and!; [done..|simpl; lia].
Qed.

Lemma best_split_loop_has_columns rows cls best0 bal0 r :
  best_split_loop rows cls best0 bal0 = Ok r → has_columns cls rows.
Proof.
  revert best0 bal0. induction cls as [|c cls IH]; intros best0 bal0.
  { intros _. apply Forall_forall. by intros row _ c ?%elem_of_nil. }
  intros [Hc Hstep]%best_split_loop_step.
  assert (has_columns cls rows) as Hcls by (case_decide; by eapply IH).
  unfold has_columns in *. rewrite Forall_forall in *.
  intros row Hrow c' [->|?]%elem_of_cons; [by apply Hc|by apply Hcls].
Qed.

(** ** The game engine: what is read and what is reported *)

Lemma consumed_refl w : consumed w w 0.
Proof. by exists []. Qed.

Lemma consumed_trans w1 w2 w3 n m :
  consumed w1 w2 n → consumed w2 w3 m → consumed w1 w3 (n + m).
Proof.
  intros (t1 & H1 & ->) (t2 & H2 & ->). exists (t1 ++ t2). split.
  - by rewrite H1, H2, (assoc_L (++)).
  - rewrite omap_app, length_app. lia.
Qed.

Lemma omap_reply_retries retries :
  Forall (λ l, reply l = None) retries → omap reply retries = [].
Proof.
  induction 1 as [|l ls Hl _ IH]; [done|]. cbn [omap list_omap]. by rewrite Hl.
Qed.

Lemma ask_yes_no_consumed prompt w answer w' :
  ask_yes_no prompt w = (Ok answer, w') → consumed w w' 1.
Proof.
  unfold ask_yes_no.
  destruct (ask_yes_no_loop _ _ _) as [r [lines out]] eqn:Hloop.
  intros [= -> <-].
  apply ask_yes_no_loop_consumes in Hloop
    as (retries & line & Hstdin & Hretries & Hline).
  exists (retries ++ [line]). cbn [stdin]. split.
  - by rewrite Hstdin, <-(assoc_L (++)).
  - rewrite omap_app, (omap_reply_retries _ Hretries). cbn [omap list_omap].
    by rewrite Hline.
Qed.

Lemma ask_yes_no_raises prompt w e w' :
  ask_yes_no prompt w = (Raise e, w') → e = EOFError ∧ stdin w' = [].
Proof.
  unfold ask_yes_no.
  destruct (ask_yes_no_loop _ _ _) as [r [lines out]] eqn:Hloop.
  intros [= -> <-]. cbn [stdin].
  revert Hloop. generalize (stdout w).
  induction (stdin w) as [|line ls IH]; intros out0; cbn [ask_yes_no_loop].
  - by intros [= <- <- <-].
  - repeat case_match; try done. apply IH.
Qed.

Lemma last_snoc_event (l : list event) x : last (l ++ [x]) = Some x.
Proof. by rewrite last_snoc. Qed.

(** What the [for] loop hands back. *)
Lemma ask_each_result guessed_elements guesses w r w' :
  ask_each guessed_elements guesses w = (r, w') →
  match r with
  | Ok (correct, guesses') =>
      consumed w w' (guesses' - guesses)
      ∧ if correct
        then guesses < guesses'
             ∧ last (stdout w') = Some (Print (msg_yay guesses'))
        else guesses' = guesses + Z.of_nat (length guessed_elements)
  | Raise e => e = EOFError
  end.
Proof.
  revert guesses w. induction guessed_elements as [|element rest IH];
    intros guesses w; cbn [ask_each].
  - intros [= <- <-]. split.
    + replace (guesses - guesses) with 0 by lia. apply consumed_refl.
    + simpl. lia.
  - unfold mbind, IO_bind at 1.
    destruct (ask_yes_no _ w) as [[[]|e] w1] eqn:Hask.
    + intros [= <- <-]. apply ask_yes_no_consumed in Hask. split_and!.
      * by replace (guesses + 1 - guesses) with 1 by lia.
      * lia.
      * apply last_snoc_event.
    + intros Hrest. apply ask_yes_no_consumed in Hask.
      specialize (IH _ _ Hrest). destruct r as [[correct guesses']|]; [|done].
      destruct IH as [Hcons Hcorrect]. split.
      * replace (guesses' - guesses) with (1 + (guesses' - (guesses + 1))) by lia.
        by eapply consumed_trans.
      * destruct correct; [split; [lia|tauto]|]. cbn [length]. lia.
    + intros [= <- <-]. by apply ask_yes_no_raises in Hask as [-> _].
Qed.

Lemma descend_consumed node guesses w node' guesses' w' :
  descend node guesses w = (Ok (node', guesses'), w') →
  consumed w w' (guesses' - guesses).
Proof.
  intros (typed & Htyped & ->)%descend_counts. exists typed. split; [done|lia].
Qed.

Lemma descend_raises node guesses w e w' :
  descend node guesses w = (Raise e, w') → e = EOFError ∨ e = AttributeError.
Proof.
  remember (length (stdin w)) as n eqn:Hn.
  revert node guesses w Hn. induction (lt_wf n) as [n _ IH].
  intros node guesses w ->. rewrite descend_eq. unfold descend_body.
  destruct (deref (heap w) node) as [self|e0] eqn:Hself.
  2:{ intros [= <- <-]. right. unfold deref in Hself.
      destruct node as [l|]; [|by simplify_eq].
      destruct (heap w !! l); by simplify_eq. }
  destruct (is_leaf self); [done|].
  destruct (ask_yes_no _ w) as [[answer|e0] w1] eqn:Hask.
  - intros Hrec. eapply IH; [|done|exact Hrec]. by eapply ask_yes_no_shorter.
  - intros [= <- <-]. left. by apply ask_yes_no_raises in Hask as [-> _].
Qed.

(** A game that returns has reported. *)
Lemma play_game_result tree w w' :
  play_game tree w = (Ok (), w') →
  ∃ guesses,
    consumed w w' guesses ∧ 0 < guesses
    ∧ (last (stdout w') = Some (Print (msg_yay guesses))
       ∨ last (stdout w') = Some (Print (msg_well_played guesses))).
Proof.
  unfold play_game, mbind, IO_bind. cbn [print].
  set (w1 := mkWorld _ _ _).
  assert (consumed w w1 0) as Hw1 by by exists [].
  destruct (descend tree 0 w1) as [[[node k]|e] w2] eqn:Hdesc; [|done].
  pose proof (descend_leaf _ _ _ _ _ _ Hdesc) as (self & Hself & Hleaf).
  apply descend_consumed in Hdesc. rewrite Z.sub_0_r in Hdesc.
  assert (0 ≤ k) as Hk by (destruct Hdesc as (? & _ & ->); lia).
  pose proof (consumed_trans _ _ _ _ _ Hw1 Hdesc) as Hw2. rewrite Z.add_0_l in Hw2.
  rewrite Hself. unfold is_leaf in Hleaf.
  destruct (answers self) as [|element [|element' rest]]; [done| |].
  - destruct (ask_yes_no _ w2) as [[correct|e] w3] eqn:Hask; [|done].
    apply ask_yes_no_consumed in Hask.
    pose proof (consumed_trans _ _ _ _ _ Hw2 Hask) as Hw3.
    destruct correct; intros [= <-]; exists (k + 1); cbn [stdin stdout];
      (split_and!; [done|lia|]); [left|right]; apply last_snoc_event.
  - destruct (ask_each _ k w2) as [[[correct g]|e] w3] eqn:Hask; [|done].
    apply ask_each_result in Hask as [Hcons Hcorrect].
    pose proof (consumed_trans _ _ _ _ _ Hw2 Hcons) as Hw3.
    replace (k + (g - k)) with g in Hw3 by lia.
    destruct correct.
    + intros [= <-]. exists g. destruct Hcorrect. split_and!; [done|lia|by left].
    + intros [= <-]. exists g. subst g. cbn [stdin stdout length] in *.
      split_and!; [done|lia|]. right. apply last_snoc_event.
Qed.

(** ** Trees in the store *)

Lemma tree_at_weaken h h' t l : h ⊆ h' → tree_at h t l → tree_at h' t l.
Proof.
  intros Hsub. revert l. induction t as [n IHl IHr] using tree_induction.
  intros l. destruct n as [q cl cr a]. cbn [tree_at question left right answers] in *.
  intros (ol & or & Hl & Hleft & Hright). exists ol, or. split_and!.
  - by eapply lookup_weaken.
  - destruct cl as [c|], ol as [a'|]; try done. by eapply IHl.
  - destruct cr as [c|], or as [a'|]; try done. by eapply IHr.
Qed.

Lemma store_tree_spec t h a h' :
  store_tree t h = (a, h') → h ⊆ h' ∧ h !! a = None ∧ tree_at h' t a.
Proof.
  revert h a h'. induction t as [n IHl IHr] using tree_induction.
  intros h a h'. destruct n as [q cl cr ans].
  cbn [store_tree question left right answers] in *.
  assert (∃ ol h1, (match cl with
                    | Some c => let '(a, h') := store_tree c h in (Some a, h')
                    | None => (None, h)
                    end) = (ol, h1)
                   ∧ h ⊆ h1
                   ∧ match cl, ol with
                     | Some c, Some a => tree_at h1 c a
                     | None, None => True
                     | _, _ => False
                     end) as (ol & h1 & -> & Hh1 & Hleft).
  { destruct cl as [c|]; [|by exists None, h].
    destruct (store_tree c h) as [al h1] eqn:Hc.
    apply IHl in Hc as (? & _ & ?); [|done]. by exists (Some al), h1. }
  assert (∃ or h2, (match cr with
                    | Some c => let '(a, h') := store_tree c h1 in (Some a, h')
                    | None => (None, h1)
                    end) = (or, h2)
                   ∧ h1 ⊆ h2
                   ∧ match cr, or with
                     | Some c, Some a => tree_at h2 c a
                     | None, None => True
                     | _, _ => False
                     end) as (or & h2 & -> & Hh2 & Hright).
  { destruct cr as [c|]; [|by exists None, h1].
    destruct (store_tree c h1) as [ar h2] eqn:Hc.
    apply IHr in Hc as (? & _ & ?); [|done]. by exists (Some ar), h2. }
  intros [= <- <-].
  assert (h2 !! fresh (dom h2) = None) as Hfresh.
  { apply not_elem_of_dom, is_fresh. }
  assert (h2 ⊆ <[fresh (dom h2) := mkTreeNode q ol or ans]> h2) as Hh'.
  { by apply insert_subseteq. }
  split_and!.
  - etrans; [exact Hh1|]. by etrans.
  - eapply lookup_weaken_None; [exact Hfresh|]. by etrans.
  - exists ol, or. split_and!.
    + by rewrite lookup_insert_eq.
    + destruct cl as [c|], ol as [al|]; try done.
      eapply tree_at_weaken; [|exact Hleft]. by etrans.
    + destruct cr as [c|], or as [ar|]; try done.
      by eapply tree_at_weaken.
Qed.

Lemma tree_at_deref h t l :
  tree_at h t l →
  ∃ ol or, deref h (Some l)
           = Ok (mkTreeNode (question (node_of t)) ol or (answers (node_of t))).
Proof.
  destruct t as [n]. cbn [tree_at node_of]. intros (ol & or & Hl & _).
  exists ol, or. unfold deref. by rewrite Hl.
Qed.

(** On a proper tree the loop never runs into a missing child. *)
Lemma descend_proper t :
  proper t →
  ∀ l guesses w e w',
    tree_at (heap w) t l →
    descend (Some l) guesses w = (Raise e, w') → e = EOFError.
Proof.
  induction t as [n IHl IHr] using tree_induction.
  intros Hproper l guesses w e w' Hat.
  destruct n as [q cl cr ans]. cbn [proper tree_at question left right answers] in *.
  destruct Hat as (ol & or & Hl & Hleft & Hright).
  rewrite descend_eq. unfold descend_body, deref. rewrite Hl.
  unfold is_leaf in *. cbn [answers question left right] in *.
  destruct ans as [|a ans]; [|done].
  destruct Hproper as [|Hproper]; [done|].
  destruct cl as [tl|], cr as [tr|]; try done.
  destruct ol as [al|], or as [ar|]; try done.
  destruct Hproper as [Hpl Hpr].
  destruct (ask_yes_no _ w) as [[answer|e0] w1] eqn:Hask.
  - pose proof (ask_yes_no_evolves (λ _, True) (λ _, I) I
                  _ _ _ _ Hask) as [Hheap _].
    destruct answer.
    + eapply IHr; [done|done|]. by rewrite Hheap.
    + eapply IHl; [done|done|]. by rewrite Hheap.
  - intros [= <- <-]. by apply ask_yes_no_raises in Hask as [-> _].
Qed.

Lemma play_game_proper t l w e w' :
  proper t → tree_at (heap w) t l →
  play_game (Some l) w = (Raise e, w') → e = EOFError.
Proof.
  intros Hproper Hat. unfold play_game, mbind, IO_bind. cbn [print].
  set (w1 := mkWorld _ _ _).
  destruct (descend (Some l) 0 w1) as [[[node k]|e0] w2] eqn:Hdesc.
  2:{ intros [= <- <-]. by eapply (descend_proper t Hproper l 0 w1). }
  pose proof (descend_leaf _ _ _ _ _ _ Hdesc) as (self & -> & Hleaf).
  unfold is_leaf in Hleaf.
  destruct (answers self) as [|element [|element' rest]]; [done| |].
  - destruct (ask_yes_no _ w2) as [[[]|e0] w3] eqn:Hask; [done..|].
    intros [= <- <-]. by apply ask_yes_no_raises in Hask as [-> _].
  - destruct (ask_each _ k w2) as [[[[] g]|e0] w3] eqn:Hask; [done..|].
    intros [= <- <-]. by apply ask_each_result in Hask.
Qed.

Lemma main_loop_proper t l w e w' :
  proper t → tree_at (heap w) t l →
  main_loop (Some l) w = (Raise e, w') → e = EOFError.
Proof.
  intros Hproper. remember (length (stdin w)) as n eqn:Hn.
  revert w Hn. induction (lt_wf n) as [n _ IH]. intros w -> Hat.
  rewrite main_loop_eq. unfold main_loop_body.
  destruct (play_game (Some l) w) as [[[]|e0] w1] eqn:Hplay.
  2:{ intros [= <- <-]. by eapply play_game_proper. }
  apply (play_game_evolves (λ _, True)) in Hplay
    as (Hheap1 & Hshort%suffix_length & _); [|done..].
  destruct (ask_yes_no _ w1) as [[[]|e0] w2] eqn:Hask.
  - pose proof (ask_yes_no_evolves (λ _, True) (λ _, I) I
                  _ _ _ _ Hask) as [Hheap2 _].
    apply ask_yes_no_shorter in Hask.
    eapply IH; [|done|]; [lia|]. by rewrite Hheap2, Hheap1.
  - done.
  - intros [= <- <-]. by apply ask_yes_no_raises in Hask as [-> _].
Qed.

(** ** A truthful player *)

Lemma descend_walk t :
  ∀ (row : dict) steps found l guesses h lines rest out,
    tree_at h t l →
    walk t row = Some (steps, found) →
    Forall2 (λ line (step : string * bool), reply line = Some step.2)
            lines steps →
    ∃ l' leaf,
      descend (Some l) guesses (mkWorld h (lines ++ rest) out)
      = (Ok (Some l', guesses + Z.of_nat (length steps)),
         mkWorld h rest (out ++ (asked ∘ fst <$> steps)))
      ∧ deref h (Some l') = Ok leaf
      ∧ answers leaf = found.
Proof.
  induction t as [n IHl IHr] using tree_induction.
  intros row steps found l guesses h lines rest out Hat Hwalk Hlines.
  destruct n as [q cl cr ans]. cbn [tree_at walk question left right answers] in *.
  destruct Hat as (ol & or & Hl & Hleft & Hright).
  assert (deref h (Some l) = Ok (mkTreeNode q ol or ans)) as Hderef.
  { unfold deref. by rewrite Hl. }
  rewrite descend_eq. unfold descend_body. cbn [heap]. rewrite Hderef.
  unfold is_leaf in *. cbn [answers question left right] in *.
  destruct ans as [|a ans].
  - destruct q as [q|]; [|done]. cbn [format_optional].
    destruct (decide (trims_to q "1" row)) as [H1|H1].
    + destruct cr as [tr|]; [|done]. destruct or as [ar|]; [|done].
      destruct (walk tr row) as [[steps' found']|] eqn:Hwalk'; [|done].
      injection Hwalk as <- <-.
      apply Forall2_cons_inv_r in Hlines as (line & lines' & Hline & Hlines' & ->).
      cbn [app]. rewrite (ask_yes_no_reply _ _ _ _ _ _ Hline).
      cbn [right left snd].
      destruct (IHr tr eq_refl row steps' found' ar (guesses + 1) h lines' rest
                  (out ++ [asked q]) Hright Hwalk' Hlines')
        as (l' & leaf & -> & Hleaf & Hfound).
      exists l', leaf. split_and!; [|done..].
      cbn [length fmap list_fmap compose fst]. rewrite <-(assoc_L (++)).
      do 3 f_equal. lia.
    + destruct (decide (trims_to q "0" row)) as [H0|H0]; [|done].
      destruct cl as [tl|]; [|done]. destruct ol as [al|]; [|done].
      destruct (walk tl row) as [[steps' found']|] eqn:Hwalk'; [|done].
      injection Hwalk as <- <-.
      apply Forall2_cons_inv_r in Hlines as (line & lines' & Hline & Hlines' & ->).
      cbn [app]. rewrite (ask_yes_no_reply _ _ _ _ _ _ Hline).
      cbn [right left snd].
      destruct (IHl tl eq_refl row steps' found' al (guesses + 1) h lines' rest
                  (out ++ [asked q]) Hleft Hwalk' Hlines')
        as (l' & leaf & -> & Hleaf & Hfound).
      exists l', leaf. split_and!; [|done..].
      cbn [length fmap list_fmap compose fst]. rewrite <-(assoc_L (++)).
      do 3 f_equal. lia.
  - injection Hwalk as <- <-. apply Forall2_nil_inv_r in Hlines as ->.
    exists l, (mkTreeNode q ol or (a :: ans)). split_and!.
    + cbn. rewrite app_nil_r. do 3 f_equal. lia.
    + done.
    + done.
Qed.

Lemma confirm_affirmed found k h denied yes rest out :
  Forall (λ line, reply line = Some false) denied →
  reply yes = Some true →
  (length denied < length found)%nat →
  confirm found k (mkWorld h (denied ++ yes :: rest) out)
  = (Ok (),
     mkWorld h rest
       (out ++ (asked ∘ msg_guess <$> take (S (length denied)) found)
            ++ [Print (msg_yay (k + Z.of_nat (S (length denied))))])).
Proof.
  intros Hdenied Hyes Hlen. unfold confirm, mbind, IO_bind at 1.
  rewrite ask_each_denied by (done || lia).
  destruct (drop (length denied) found) as [|element elements] eqn:Hdrop.
  { apply (f_equal length) in Hdrop. rewrite length_drop in Hdrop.
    simpl in Hdrop. lia. }
  cbn [ask_each]. unfold mbind, IO_bind at 1.
  rewrite (ask_yes_no_reply _ _ _ _ _ _ Hyes). cbn.
  assert (found !! length denied = Some element) as Hlookup.
  { rewrite <-(Nat.add_0_r (length denied)), <-lookup_drop. by rewrite Hdrop. }
  rewrite (take_S_r _ _ _ Hlookup), fmap_app, <-!(assoc_L (++)).
  unfold mret, IO_ret. cbn [fmap list_fmap app compose].
  by replace (k + Z.of_nat (length denied) + 1)
    with (k + Z.of_nat (S (length denied))) by lia.
Qed.

(** ** export_tree_to_png *)







(** ** The session loop and main *)

Lemma main_loop_evolves_with (Q : event → Prop) tree w r w' :
  (∀ text, Q (Prompt text)) → Q (Print msg_retry) →
  (∀ guesses, Q (Print (msg_yay guesses))) → Q (Print msg_intro) →
  (∀ guesses, Q (Print (msg_well_played guesses))) → Q (Print msg_goodbye) →
  main_loop tree w = (r, w') → evolves Q w w'.
Proof.
  intros Qp Qr Qy Qi Qw Qg.
  remember (length (stdin w)) as n eqn:Hn.
  revert w Hn. induction (lt_wf n) as [n _ IH]. intros w ->.
  rewrite main_loop_eq. unfold main_loop_body.
  destruct (play_game tree w) as [[[]|e] w1] eqn:Hplay;
    apply (play_game_evolves Q) in Hplay; try done.
  2:{ by intros [= <- <-]. }
  destruct (ask_yes_no _ w1) as [[[]|e] w2] eqn:Hask;
    pose proof (ask_yes_no_evolves Q Qp Qr _ _ _ _ Hask) as Hw2.
  - intros Hrec. etrans; [done|]. etrans; [done|].
    eapply IH; [|done|exact Hrec].
    apply ask_yes_no_shorter in Hask.
    destruct Hplay as (_ & Hi%suffix_length & _). lia.
  - intros ?%(print_evolves Q); [|done]. etrans; [done|]. by etrans.
  - intros [= <- <-]. by etrans.
Qed.


Lemma ask_yes_no_retries prompt retries h lines out :
  Forall (λ l, reply l = None) retries →
  ask_yes_no prompt (mkWorld h (retries ++ lines) out)
  = ask_yes_no prompt (mkWorld h lines (out ++ retried prompt retries)).
Proof.
  intros Hretries. revert out.
  induction Hretries as [|l ls Hl _ IH]; intros out.
  - unfold retried. cbn. by rewrite app_nil_r.
  - cbn [app]. rewrite (ask_yes_no_retry _ _ _ _ _ Hl), IH.
    unfold retried. cbn [mbind list_bind app]. by rewrite <-(assoc_L (++)).
Qed.

Lemma main_loop_ends tree w w' :
  main_loop tree w = (Ok (), w') →
  last (stdout w') = Some (Print msg_goodbye)
  ∧ ∃ typed line, stdin w = typed ++ line :: stdin w'
                  ∧ reply line = Some false.
Proof.
  remember (length (stdin w)) as n eqn:Hn.
  revert w Hn. induction (lt_wf n) as [n _ IH]. intros w ->.
  rewrite main_loop_eq. unfold main_loop_body.
  destruct (play_game tree w) as [[[]|e] w1] eqn:Hplay; [|done].
  apply (play_game_evolves (λ _, True)) in Hplay
    as (_ & Hsuffix & _); [|done..].
  pose proof (suffix_length _ _ Hsuffix) as Hshort.
  destruct Hsuffix as [played Hplayed].
  destruct (ask_yes_no _ w1) as [[[]|e] w2] eqn:Hask; [| |done].
  - intros Hrec.
    pose proof (ask_yes_no_shorter _ _ _ _ Hask) as Hshort2.
    destruct (ask_yes_no_consumed _ _ _ _ Hask) as (typed1 & Htyped1 & _).
    destruct (IH (length (stdin w2)) ltac:(lia) w2 eq_refl Hrec)
      as (Hlast & typed & line & Htyped & Hline).
    split; [done|]. exists (played ++ typed1 ++ typed), line.
    split; [|done]. by rewrite Hplayed, Htyped1, Htyped, <-!(assoc_L (++)).
  - intros [= <-]. split; [apply last_snoc_event|]. cbn [stdin].
    unfold ask_yes_no in Hask.
    destruct (ask_yes_no_loop _ _ _) as [r [lines out]] eqn:Hloop.
    injection Hask as -> <-. cbn [stdin].
    apply ask_yes_no_loop_consumes in Hloop
      as (retries & line & Hstdin & _ & Hline).
    exists (played ++ retries), line. split; [|done].
    by rewrite Hplayed, Hstdin, <-(assoc_L (++)).
Qed.

(** ** Where the builder raises *)

Lemma missing_mono cols cols' rows rows' e :
  cols ⊆ cols' → rows ⊆ rows' → missing cols rows e → missing cols' rows' e.
Proof.
  intros Hcols Hrows (c & row & -> & Hc & Hrow & Hnone).
  exists c, row. split_and!; [done|by apply Hcols|by apply Hrows|done].
Qed.

Lemma getitem_Raise (row : dict) c e :
  getitem row c = Raise e → e = KeyError c ∧ row !! c = None.
Proof. unfold getitem. destruct (row !! c); [done|]. by intros [= <-]. Qed.

Lemma strips_to_Raise c v (row : dict) e :
  strips_to c v row = Raise e → e = KeyError c ∧ row !! c = None.
Proof.
  unfold strips_to. destruct (getitem row c) eqn:Hget; [done|].
  intros [= <-]. by apply getitem_Raise.
Qed.

Lemma sum_1_if_Raise {A} (p : A → result bool) l e :
  sum_1_if p l = Raise e → ∃ x, x ∈ l ∧ p x = Raise e.
Proof.
  induction l as [|x l IH]; simpl; [done|].
  destruct (p x) as [b|e'] eqn:Hb; simpl.
  - destruct (sum_1_if p l) as [n|e'']; simpl; [done|].
    intros [= <-]. destruct IH as (x' & ? & ?); [done|].
    exists x'. split; [by right|done].
  - intros [= <-]. exists x. split; [by left|done].
Qed.

Lemma comprehension_if_Raise {A} (p : A → result bool) l e :
  comprehension_if p l = Raise e → ∃ x, x ∈ l ∧ p x = Raise e.
Proof.
  induction l as [|x l IH]; simpl; [done|].
  destruct (p x) as [b|e'] eqn:Hb; simpl.
  - destruct (comprehension_if p l) as [n|e'']; simpl; [done|].
    intros [= <-]. destruct IH as (x' & ? & ?); [done|].
    exists x'. split; [by right|done].
  - intros [= <-]. exists x. split; [by left|done].
Qed.

Lemma all_columns_equal_Raise (row : dict) first_row_values cols e :
  (∀ i col, (i, col) ∈ cols → (i < length first_row_values)%nat) →
  all_columns_equal row first_row_values cols = Raise e →
  ∃ c, c ∈ cols.*2 ∧ e = KeyError c ∧ row !! c = None.
Proof.
  induction cols as [|[i col] cols IH]; intros Hcols; simpl; [done|].
  destruct (getitem row col) as [v|e'] eqn:Hv; simpl.
  2:{ intros [= <-]. apply getitem_Raise in Hv as [-> ?].
      exists col. split_and!; [by left|done..]. }
  assert (is_Some (first_row_values !! i)) as [w Hw].
  { apply lookup_lt_is_Some_2, (Hcols i col). by left. }
  unfold list_getitem. rewrite Hw. simpl.
  destruct (String.eqb v w); [|done].
  intros (c & ? & ? & ?)%IH.
  - exists c. split_and!; [by right|done..].
  - intros i' col' Hin. apply (Hcols i' col'). by right.
Qed.

Lemma all_same_values_Raise rows cols e :
  all_same_values rows cols = Raise e → missing cols rows e.
Proof.
  destruct rows as [|row0 rest]; simpl; [done|].
  destruct (comprehension (getitem row0) cols) as [frv|e'] eqn:Hfrv; simpl.
  2:{ intros [= <-].
      apply comprehension_Raise in Hfrv as (c & Hc & [-> ?]%getitem_Raise).
      exists c, row0. split_and!; [done..|by left|done]. }
  apply comprehension_length in Hfrv.
  destruct (comprehension _ rest) as [bs|e'] eqn:Hbs; simpl; [done|].
  intros [= <-].
  apply comprehension_Raise in Hbs as (row & Hrow & Hraise).
  apply all_columns_equal_Raise in Hraise as (c & Hc & -> & Hnone).
  - exists c, row. split_and!; [done| |by right|done].
    unfold enumerate in Hc. by rewrite snd_zip in Hc by (rewrite length_seq; lia).
  - intros i col Hin. apply elem_of_zip_l, elem_of_seq in Hin. lia.
Qed.

Lemma best_split_loop_Raise rows cls best0 bal0 e :
  best_split_loop rows cls best0 bal0 = Raise e → missing cls rows e.
Proof.
  revert best0 bal0. induction cls as [|c cls IH]; intros best0 bal0; simpl;
    [done|].
  destruct (sum_1_if (strips_to c "0") rows) as [n0|e'] eqn:H0; simpl.
  2:{ intros [= <-].
      apply sum_1_if_Raise in H0 as (row & Hrow & [-> ?]%strips_to_Raise).
      exists c, row. split_and!; [done|by left|done..]. }
  destruct (sum_1_if (strips_to c "1") rows) as [n1|e'] eqn:H1; simpl.
  2:{ intros [= <-].
      apply sum_1_if_Raise in H1 as (row & Hrow & [-> ?]%strips_to_Raise).
      exists c, row. split_and!; [done|by left|done..]. }
  case_match; intros Hrec%IH; (eapply missing_mono; [| |exact Hrec]);
    set_solver.
Qed.

Lemma leaf_of_rows_Raise rows label_col e :
  leaf_of_rows rows label_col = Raise e → missing [label_col] rows e.
Proof.
  unfold leaf_of_rows.
  destruct (comprehension _ rows) as [labels|e'] eqn:Hlabels; simpl; [done|].
  intros [= <-].
  apply comprehension_Raise in Hlabels as (row & Hrow & [-> ?]%getitem_Raise).
  exists label_col, row. split_and!; [done|by left|done..].
Qed.

Lemma build_tree_Raise rows cls label_col e :
  build_tree rows cls label_col = Raise e →
  missing (label_col :: cls) rows e.
Proof.
  remember (length cls) as n eqn:Hn.
  revert rows cls Hn. induction (lt_wf n) as [n _ IH]. intros rows cls ->.
  rewrite build_tree_eq. unfold build_tree_body.
  destruct rows as [|row0 rows']; [done|].
  set (rows := row0 :: rows') in *. clearbody rows.
  assert (∀ e, leaf_of_rows rows label_col = Raise e →
               missing (label_col :: cls) rows e) as Hleaf.
  { intros e' He'%leaf_of_rows_Raise.
    eapply missing_mono; [|reflexivity|exact He'].
    intros c ->%list_elem_of_singleton. by left. }
  destruct (all_same_values _ _) as [same|e'] eqn:Hsame; simpl.
  2:{ intros [= <-]. by apply all_same_values_Raise. }
  destruct same; [by apply Hleaf|].
  destruct (best_split rows cls) as [best|e'] eqn:Hbest; simpl.
  2:{ intros [= <-]. apply best_split_loop_Raise in Hbest.
      eapply missing_mono; [| |exact Hbest]; set_solver. }
  destruct best as [best|]; [|by apply Hleaf].
  destruct (negb _ && _); [|by apply Hleaf].
  assert (best ∈ cls) as Hin by by eapply best_split_elem.
  assert (Forall (λ row : dict, is_Some (row !! best)) rows) as Hcol.
  { apply best_split_loop_has_columns in Hbest.
    by eapply has_column_elem. }
  rewrite (proj2 (comprehension_if_Ok best "0" rows _) (conj Hcol eq_refl)).
  rewrite (proj2 (comprehension_if_Ok best "1" rows _) (conj Hcol eq_refl)).
  simpl.
  assert (length (remaining cls best) < length cls)%nat as Hshorter.
  { apply (length_filter_lt _ _ best); [done|]. by intros []. }
  assert (∀ v e, missing (label_col :: remaining cls best)
                   (filter (trims_to best v) rows) e →
                 missing (label_col :: cls) rows e) as Hsub.
  { intros v e'. apply missing_mono.
    - unfold remaining.
      intros c [->|[_ Hc]%list_elem_of_filter]%elem_of_cons; [by left|by right].
    - intros row [_ ?]%list_elem_of_filter. done. }
  destruct (build_tree (filter (trims_to best "0") rows) _ _)
    as [lt|e'] eqn:Hlt; simpl.
  2:{ intros [= <-]. eapply Hsub, IH; [exact Hshorter|done|exact Hlt]. }
  destruct (build_tree (filter (trims_to best "1") rows) _ _)
    as [rt|e'] eqn:Hrt; simpl; [done|].
  intros [= <-]. eapply Hsub, IH; [exact Hshorter|done|exact Hrt].
Qed.

(** * The properties of the specification *)

(** ** The node class and the degenerate leaf *)

(** C1 (the code departs from it). The node returned for an empty table, laid
    out in an empty store and played: whatever is typed, the engine shows the
    question "None" and ends by raising, never by reporting; with the reply
    "yes" it follows the missing right child and raises [AttributeError] after
    that one question. *)
Theorem play_game_degenerate_raises cls label_col lines :
  ∃ t, build_tree [] cls label_col = Ok t
       ∧ let '(root, h) := store_tree t ∅ in
         (∃ e w', play_game (Some root) (mkWorld h lines []) = (Raise e, w')
                  ∧ asked "None" ∈ stdout w')
         ∧ play_game (Some root) (mkWorld h ("yes" :: lines) [])
           = (Raise AttributeError,
              mkWorld h lines [Print msg_intro; asked "None"]).
Proof.
  eexists. split; [by rewrite build_tree_eq|].
  unfold TreeNode_init. cbn [store_tree left right question answers].
  generalize (fresh (dom (∅ : gmap loc (TreeNode loc)))). intros root.
  set (h := <[root := _]> ∅).
  assert (deref h (Some root) = Ok (mkTreeNode None None None [])) as Hroot.
  { unfold deref, h. by rewrite lookup_insert_eq. }
  split.
  - unfold play_game, mbind, IO_bind. cbn [print heap stdin stdout].
    rewrite descend_eq. unfold descend_body. cbn [heap]. rewrite Hroot.
    cbn [is_leaf answers question format_optional right left].
    destruct (ask_yes_no "None" _) as [[answer|e] w1] eqn:Hask;
      apply ask_yes_no_asks in Hask; [|by eauto].
    rewrite descend_eq. unfold descend_body. destruct answer; by eauto.
  - unfold play_game, mbind, IO_bind. cbn [print heap stdin stdout].
    rewrite descend_eq. unfold descend_body. cbn [heap]. rewrite Hroot.
    cbn [is_leaf answers question format_optional right].
    rewrite (ask_yes_no_reply _ _ true) by done.
    rewrite descend_eq. unfold descend_body. done.
Qed.

(** C2 (the code departs from it). The node that [build_tree] returns for an
    empty table has no question and no answers, and [is_leaf] answers [False]
    for it: the query is exactly "the answers list is not empty". *)
Theorem is_leaf_degenerate_false cls label_col :
  ∃ t, build_tree [] cls label_col = Ok t
       ∧ question (node_of t) = None
       ∧ answers (node_of t) = []
       ∧ is_leaf (node_of t) = false.
Proof. eexists. by rewrite build_tree_eq. Qed.

(** ** The split selector *)

(** C3. For rows that carry every candidate feature, [best_split] returns;
    when it returns a feature, that feature is usable, every usable feature
    before it in the supplied order has a strictly larger imbalance and every
    usable feature after it has an imbalance at least as large (first of the
    most balanced, a later feature wins only when strictly better); when it
    returns [None], no candidate is usable. *)
Theorem best_split_first_most_balanced rows cls :
  has_columns cls rows →
  ∃ r, best_split rows cls = Ok r
       ∧ match r with
         | Some f => first_most_balanced rows cls f
         | None => ∀ g, g ∈ cls → ¬ usable rows g
         end.
Proof.
  intros [r Hr]%(best_split_loop_total rows cls None Inf).
  exists r. split; [done|].
  apply best_split_loop_spec in Hr as [[-> Hnone]|(f & -> & Hf & _)]; [|done].
  intros g Hg Huse. by specialize (Hnone g Hg Huse).
Qed.

Lemma best_split_first_most_balanced_witness :
  ∃ r, best_split Sample.zoo Sample.zoo_features = Ok r
       ∧ match r with
         | Some f => first_most_balanced Sample.zoo Sample.zoo_features f
         | None => ∀ g, g ∈ Sample.zoo_features → ¬ usable Sample.zoo g
         end.
Proof.
  apply best_split_first_most_balanced.
  apply (bool_decide_unpack _). vm_compute. exact I.
Defined.

Example best_split_zoo : best_split Sample.zoo Sample.zoo_features = Ok (Some "tail").
Proof. vm_compute. reflexivity. Qed.

(** A row that lacks a candidate feature makes the selector raise. *)
Example best_split_missing_column :
  best_split [row_of [("label", "cat"); ("legs", "1")]] ["wings"]
  = Raise (KeyError "wings").
Proof. vm_compute. reflexivity. Qed.

(** ** The builder *)

(** C4. When [build_tree] returns a node that asks [q], that node has two
    children; the left one is what [build_tree] returns on the rows whose value
    for [q] trims to "0", the right one on those whose value trims to "1",
    both in the order of [rows] and with [q] removed from the candidates; a
    row whose value trims to neither is in neither list. *)
Theorem build_tree_split_partition rows cls label_col q l r a :
  build_tree rows cls label_col = Ok (Tree (mkTreeNode (Some q) l r a)) →
  best_split rows cls = Ok (Some q)
  ∧ ∃ left_child right_child,
      l = Some left_child ∧ r = Some right_child
      ∧ build_tree (filter (trims_to q "0") rows) (remaining cls q) label_col
        = Ok left_child
      ∧ build_tree (filter (trims_to q "1") rows) (remaining cls q) label_col
        = Ok right_child
      ∧ ∀ row, row ∈ rows → ¬ trims_to q "0" row → ¬ trims_to q "1" row →
          (row ∉ filter (trims_to q "0") rows)
          ∧ (row ∉ filter (trims_to q "1") rows).
Proof.
  intros Hstep%build_tree_Ok_inv.
  inversion Hstep as [|labels ? ?|best lt rt ? ? ? Hbest Hlt Hrt]; subst.
  split; [done|]. exists lt, rt. split_and!; try done.
  intros row _ Hno Hyes. split; by intros [? _]%list_elem_of_filter.
Qed.

Lemma build_tree_split_partition_witness :
  best_split Sample.zoo ["legs"] = Ok (Some "legs")
  ∧ ∃ left_child right_child,
      Some (Tree (mkTreeNode None None None ["dog"; "eel"])) = Some left_child
      ∧ Some (Tree (mkTreeNode None None None ["cat"])) = Some right_child
      ∧ build_tree (filter (trims_to "legs" "0") Sample.zoo)
          (remaining ["legs"] "legs") "label" = Ok left_child
      ∧ build_tree (filter (trims_to "legs" "1") Sample.zoo)
          (remaining ["legs"] "legs") "label" = Ok right_child
      ∧ ∀ row, row ∈ Sample.zoo →
          ¬ trims_to "legs" "0" row → ¬ trims_to "legs" "1" row →
          (row ∉ filter (trims_to "legs" "0") Sample.zoo)
          ∧ (row ∉ filter (trims_to "legs" "1") Sample.zoo).
Proof.
  apply (build_tree_split_partition Sample.zoo ["legs"] "label" "legs" _ _ []).
  vm_compute. reflexivity.
Defined.

Example zoo_left_rows :
  filter (trims_to "legs" "0") Sample.zoo
  = [ row_of [("label", "dog"); ("wings", "0"); ("tail", "1"); ("fur", "0"); ("legs", "0")];
      row_of [("label", "eel"); ("wings", "0"); ("tail", "0"); ("fur", "1"); ("legs", "0")] ].
Proof. vm_compute. reflexivity. Qed.

(** C6. [build_tree] ends on every input: it is defined by recursion on the
    length of the candidate list, and the list handed to the two recursive
    calls is strictly shorter than the one received.  Every tree it returns
    has at most one node more on a path than there are candidate features,
    and it does return a tree when the rows carry the label and every
    candidate feature. *)
Theorem build_tree_terminates_depth rows cls label_col :
  (∀ best, best_split rows cls = Ok (Some best) →
           (length (remaining cls best) < length cls)%nat)
  ∧ (∀ t, build_tree rows cls label_col = Ok t →
          (depth t ≤ length cls + 1)%nat)
  ∧ (has_columns (label_col :: cls) rows →
     ∃ t, build_tree rows cls label_col = Ok t).
Proof.
  split_and!.
  - intros best Hbest%best_split_elem.
    apply (length_filter_lt _ _ best); [done|]. by intros [].
  - intros t. apply depth_bound.
  - apply build_tree_total.
Qed.

Lemma build_tree_terminates_depth_witness :
  ∃ t, build_tree Sample.zoo Sample.zoo_features "label" = Ok t
       ∧ (depth t ≤ length Sample.zoo_features + 1)%nat.
Proof.
  destruct (build_tree_terminates_depth Sample.zoo Sample.zoo_features "label")
    as (_ & Hdepth & Hreturns).
  destruct Hreturns as [t Ht].
  { apply (bool_decide_unpack _). vm_compute. exact I. }
  exists t. split; [exact Ht|]. apply Hdepth, Ht.
Defined.

Example build_tree_zoo_depth :
  depth <$> (match build_tree Sample.zoo Sample.zoo_features "label" with
             | Ok t => Some t
             | Raise _ => None
             end) = Some 3%nat.
Proof. vm_compute. reflexivity. Qed.

(** C7. When [build_tree] returns a node that asks [q], both children were
    built from a candidate list that no longer holds [q]; hence, in a tree
    returned by [build_tree], the questions met on any path from the root
    down to a leaf are pairwise distinct (and all come from the candidate
    list). *)
Theorem build_tree_no_repeated_question rows cls label_col t :
  build_tree rows cls label_col = Ok t →
  (∀ q l r a, t = Tree (mkTreeNode (Some q) l r a) →
     (q ∉ remaining cls q)
     ∧ ∃ left_rows right_rows left_child right_child,
         l = Some left_child ∧ r = Some right_child
         ∧ build_tree left_rows (remaining cls q) label_col = Ok left_child
         ∧ build_tree right_rows (remaining cls q) label_col = Ok right_child)
  ∧ Forall (λ p, NoDup p ∧ p ⊆ cls) (paths t).
Proof.
  intros Ht. split.
  - intros q l r a ->. split.
    + unfold remaining. by intros [? _]%list_elem_of_filter.
    + apply build_tree_Ok_inv in Ht.
      inversion Ht as [|labels ? ?|best lt rt ? ? ? Hbest Hlt Hrt]; subst.
      by eauto 10.
  - by eapply paths_distinct.
Qed.

Lemma build_tree_no_repeated_question_witness :
  let t := Tree (mkTreeNode (Some "tail")
       (Some (Tree (mkTreeNode (Some "fur")
          (Some (Tree (mkTreeNode None None None ["emu"])))
          (Some (Tree (mkTreeNode None None None ["eel"]))) [])))
       (Some (Tree (mkTreeNode (Some "legs")
          (Some (Tree (mkTreeNode None None None ["dog"])))
          (Some (Tree (mkTreeNode None None None ["cat"]))) []))) []) in
  (∀ q l r a, t = Tree (mkTreeNode (Some q) l r a) →
     (q ∉ remaining Sample.zoo_features q)
     ∧ ∃ left_rows right_rows left_child right_child,
         l = Some left_child ∧ r = Some right_child
         ∧ build_tree left_rows (remaining Sample.zoo_features q) "label"
           = Ok left_child
         ∧ build_tree right_rows (remaining Sample.zoo_features q) "label"
           = Ok right_child)
  ∧ Forall (λ p, NoDup p ∧ p ⊆ Sample.zoo_features) (paths t).
Proof.
  apply (build_tree_no_repeated_question Sample.zoo Sample.zoo_features "label").
  vm_compute. reflexivity.
Defined.

Example zoo_paths :
  paths <$> (match build_tree Sample.zoo Sample.zoo_features "label" with
             | Ok t => Some t
             | Raise _ => None
             end)
  = Some [["tail"; "fur"]; ["tail"; "fur"]; ["tail"; "legs"]; ["tail"; "legs"]].
Proof. vm_compute. reflexivity. Qed.

(** C8. On the empty row list [build_tree] returns the node without question,
    children or answers, whatever the candidate list and the label column. *)
Theorem build_tree_empty_rows cls label_col :
  build_tree [] cls label_col = Ok (Tree (mkTreeNode None None None [])).
Proof. by rewrite build_tree_eq. Qed.

Example build_tree_pets :
  build_tree Sample.pets ["legs"] "label"
  = Ok (Tree (mkTreeNode (Some "legs")
                (Some (Tree (mkTreeNode None None None ["dog"])))
                (Some (Tree (mkTreeNode None None None ["cat"]))) [])).
Proof. vm_compute. reflexivity. Qed.

(** C9. A tree returned by [build_tree] on a non-empty row list has no leaf
    with an empty answers list: a chosen feature has both buckets non-empty,
    so both recursive calls receive rows.  A leaf without answers therefore
    only occurs in the tree built from the empty row list, where it is the
    root. *)
Theorem build_tree_leaves_nonempty rows cls label_col t :
  build_tree rows cls label_col = Ok t →
  (rows ≠ [] → Forall (λ a, a ≠ []) (leaves t))
  ∧ ([] ∈ leaves t → rows = [] ∧ t = Tree (mkTreeNode None None None [])).
Proof.
  intros Ht. split.
  - by eapply leaves_nonempty.
  - by eapply empty_leaf_only_from_empty_rows.
Qed.

Lemma build_tree_leaves_nonempty_witness :
  let t := Tree (mkTreeNode (Some "legs")
                   (Some (Tree (mkTreeNode None None None ["dog"])))
                   (Some (Tree (mkTreeNode None None None ["cat"]))) []) in
  (Sample.pets ≠ [] → Forall (λ a, a ≠ []) (leaves t))
  ∧ ([] ∈ leaves t →
     Sample.pets = [] ∧ t = Tree (mkTreeNode None None None [])).
Proof.
  apply (build_tree_leaves_nonempty Sample.pets ["legs"] "label").
  vm_compute. reflexivity.
Defined.

(** ** The game engine *)

(** C5. At a leaf with at least one answer, reached with the counter at [k]:
    when the lines typed next are [denied], each a "no", followed either by
    one "yes" while answers remain ([affirm = Some line]) or by nothing once
    every answer has been denied ([affirm = None]), the engine asks about the
    answers in stored order, one question per typed line and no more; it ends
    on "Yay" in the first case and on "Well played" in the second, and both
    messages carry [k] plus the number of questions asked. *)
Theorem play_game_leaf_protocol tree w node k w1 leaf denied affirm rest :
  descend tree 0 (print msg_intro w).2 = (Ok (node, k), w1) →
  deref (heap w1) node = Ok leaf →
  answers leaf ≠ [] →
  Forall (λ line, reply line = Some false) denied →
  match affirm with
  | Some line =>
      reply line = Some true ∧ (length denied < length (answers leaf))%nat
  | None => length denied = length (answers leaf)
  end →
  stdin w1 = denied ++ option_list affirm ++ rest →
  let n := length (denied ++ option_list affirm) in
  play_game tree w
  = (Ok (),
     mkWorld (heap w) rest
       (stdout w1
        ++ (asked ∘ msg_guess <$> take n (answers leaf))
        ++ [Print (match affirm with
                   | Some _ => msg_yay (k + Z.of_nat n)
                   | None => msg_well_played (k + Z.of_nat n)
                   end)])).
Proof.
  intros Hdesc Hleaf Hne Hdenied Haffirm Hstdin n.
  rewrite (play_game_at_leaf _ _ _ _ _ _ Hdesc Hleaf Hne).
  apply (descend_evolves (λ _, True)) in Hdesc as [Hheap _]; [|done..].
  cbn in Hheap. rewrite <-Hheap. clear Hheap Hleaf Hne.
  destruct w1 as [h lines out]. cbn [heap stdin stdout] in *. subst lines.
  unfold confirm, mbind, IO_bind at 1.
  destruct affirm as [line|].
  - destruct Haffirm as [Hline Hlen].
    rewrite ask_each_denied by (done || lia).
    destruct (drop (length denied) (answers leaf)) as [|element elements] eqn:Hdrop.
    { apply (f_equal length) in Hdrop. rewrite length_drop in Hdrop.
      simpl in Hdrop. lia. }
    cbn [ask_each]. unfold mbind, IO_bind at 1.
    change (option_list (Some line) ++ rest) with (line :: rest).
    rewrite (ask_yes_no_reply _ _ _ _ _ _ Hline). cbn.
    subst n. rewrite length_app.
    change (length (option_list (Some line))) with 1%nat.
    replace (length denied + 1)%nat with (S (length denied)) by lia.
    assert (answers leaf !! length denied = Some element) as Hlookup.
    { rewrite <-(Nat.add_0_r (length denied)), <-lookup_drop. by rewrite Hdrop. }
    rewrite (take_S_r _ _ _ Hlookup), fmap_app, <-!(assoc_L (++)).
    unfold mret, IO_ret. cbn [fmap list_fmap app compose].
    by replace (k + Z.of_nat (length denied) + 1)
      with (k + Z.of_nat (S (length denied))) by lia.
  - cbn [option_list app] in *. subst n. rewrite app_nil_r.
    rewrite ask_each_denied by (done || lia).
    rewrite Haffirm, drop_all, firstn_all. cbn.
    unfold print. cbn [heap stdin stdout]. by rewrite <-(assoc_L (++)).
Qed.

Lemma play_game_leaf_protocol_witness :
  let n := length (["no"] ++ option_list (Some "yes")) in
  play_game (Some 3%positive) (mkWorld parlour ["yes"; "no"; "yes"] [])
  = (Ok (),
     mkWorld parlour []
       ([Print msg_intro; asked "fur"]
        ++ (asked ∘ msg_guess <$> take n ["cat"; "dog"])
        ++ [Print (msg_yay (1 + Z.of_nat n))])).
Proof.
  apply (play_game_leaf_protocol (Some 3%positive)
           (mkWorld parlour ["yes"; "no"; "yes"] [])
           (Some 1%positive) 1
           (mkWorld parlour ["no"; "yes"] [Print msg_intro; asked "fur"])
           (mkTreeNode None None None ["cat"; "dog"])
           ["no"] (Some "yes") []).
  - vm_compute. reflexivity.
  - vm_compute. reflexivity.
  - discriminate.
  - repeat constructor.
  - split; [reflexivity|simpl; lia].
  - reflexivity.
Defined.

Example play_game_cat_dog :
  stdout (play_game (Some 3%positive)
            (mkWorld parlour ["yes"; "no"; "yes"] [])).2
  = [ Print msg_intro;
      Prompt "fur (yes/no): ";
      Prompt "Is your guess cat? (yes/no): ";
      Prompt "Is your guess dog? (yes/no): ";
      Print "Yay! I guessed it in 3 questions!" ].
Proof. vm_compute. reflexivity. Qed.

Example play_game_single_denied :
  stdout (play_game (Some 3%positive) (mkWorld parlour ["n"; " NO "] [])).2
  = [ Print msg_intro;
      Prompt "fur (yes/no): ";
      Prompt "Is your guess emu? (yes/no): ";
      Print "Well played! I couldn't guess your element. I used 2 questions." ].
Proof. vm_compute. reflexivity. Qed.

(** The table of the specification, built, laid out in the store and played
    by someone who thinks of the cat. *)
Example play_game_pets :
  match build_tree Sample.pets ["legs"] "label" with
  | Ok t =>
      let '(root, h) := store_tree t ∅ in
      stdout (play_game (Some root) (mkWorld h ["yes"; "y"] [])).2
  | Raise _ => []
  end
  = [ Print msg_intro;
      Prompt "legs (yes/no): ";
      Prompt "Is your guess cat? (yes/no): ";
      Print "Yay! I guessed it in 2 questions!" ].
Proof. vm_compute. reflexivity. Qed.

(** C10. A play-through leaves the object store as it found it: no node's
    question, answers, left or right changes, and the same holds for the
    whole session loop of [main], however many games it plays. *)
Theorem play_game_preserves_tree tree w :
  heap (play_game tree w).2 = heap w
  ∧ heap (main_loop tree w).2 = heap w.
Proof.
  split.
  - destruct (play_game tree w) as [r w'] eqn:Hplay.
    by apply (play_game_evolves (λ _, True)) in Hplay as [? _].
  - destruct (main_loop tree w) as [r w'] eqn:Hloop.
    by apply main_loop_evolves in Hloop as [? _].
Qed.

(** * Further properties of the code *)

(** ** read_csv *)

(** X1. [read_csv] returns exactly when the file has a first record with at
    least one cell (the label column) and every later record has at least as
    many cells as the first; in every other case it raises [IndexError]. *)
Theorem read_csv_accepts records :
  ((∃ out, read_csv records = Ok out) ↔
   ∃ label_col features data,
     records = (label_col :: features) :: data
     ∧ Forall (λ r : list string, (length features < length r)%nat) data)
  ∧ ∀ e, read_csv records = Raise e → e = IndexError.
Proof.
  split; [split|].
  - intros [[[rows features] label_col] Hout].
    apply read_csv_Ok in Hout as (data & -> & Hrows%comprehension_Ok_Forall2).
    exists label_col, features, data. split; [done|].
    apply Forall_forall. intros r Hr.
    apply list_elem_of_lookup in Hr as [j Hj].
    destruct (Forall2_lookup_l _ _ _ _ _ Hrows Hj) as (d & _ & Hd).
    apply row_dict_of_Ok_length in Hd. simpl in Hd. lia.
  - intros (label_col & features & data & -> & Hdata).
    destruct (comprehension_total (row_dict_of (label_col :: features)) data)
      as [rows Hrows].
    { eapply Forall_impl; [exact Hdata|]. intros r Hr. simpl in Hr.
      apply row_dict_loop_total; simpl; lia. }
    exists (rows, features, label_col). apply read_csv_Ok. by exists data.
  - intros e. unfold read_csv. destruct records as [|header data]; [by intros [= <-]|].
    cbn [list_getitem lookup list_lookup mbind result_bind].
    destruct header as [|label_col features]; [by intros [= <-]|].
    cbn [list_getitem lookup list_lookup mbind result_bind].
    destruct (comprehension _ _) as [rows|e'] eqn:Hrows; [done|]. simpl.
    intros [= <-]. apply comprehension_Raise in Hrows as (r & _ & Hr).
    by apply row_dict_loop_Raise in Hr as [-> _].
Qed.

Example read_csv_short_row :
  read_csv [["name"; "legs"; "fur"]; ["cat"; "1"; "1"]; ["eel"; "0"]]
  = Raise IndexError.
Proof. vm_compute. reflexivity. Qed.

(** X2. In the dictionary that [read_csv] makes of a data record, the keys
    are exactly the names of the first record, and the value under a name is
    the cell in the position of the last column of that name (cells beyond
    the first record's length are ignored). *)
Theorem read_csv_cells records rows features label_col j d :
  read_csv records = Ok (rows, features, label_col) →
  rows !! j = Some d →
  ∃ r, records !! S j = Some r
       ∧ (∀ k, is_Some (d !! k) ↔ k ∈ label_col :: features)
       ∧ ∀ i k, (label_col :: features) !! i = Some k →
                (∀ i', (i < i')%nat → (label_col :: features) !! i' ≠ Some k) →
                d !! k = r !! i ∧ is_Some (r !! i).
Proof.
  intros (data & -> & Hrows%comprehension_Ok_Forall2)%read_csv_Ok Hj.
  destruct (Forall2_lookup_r _ _ _ _ _ Hrows Hj) as (r & Hr & Hd).
  exists r. split_and!; [done|by intros k; eapply row_dict_of_keys|].
  intros i k Hi Hlast.
  pose proof (lookup_lt_Some _ _ _ Hi) as Hlt.
  apply row_dict_loop_Ok in Hd as (Hrange & _ & Hcell). split.
  - apply Hcell; [lia|done|]. intros i' ?. apply Hlast. lia.
  - apply Hrange. lia.
Qed.

Lemma read_csv_cells_witness :
  ∃ r, [["name"; "legs"; "legs"]; ["cat"; "1"; "0"; "x"]] !! 1%nat = Some r
       ∧ (∀ k, is_Some (row_of [("name", "cat"); ("legs", "0")] !! k)
               ↔ k ∈ ["name"; "legs"; "legs"])
       ∧ ∀ i k, ["name"; "legs"; "legs"] !! i = Some k →
                (∀ i', (i < i')%nat → ["name"; "legs"; "legs"] !! i' ≠ Some k) →
                row_of [("name", "cat"); ("legs", "0")] !! k = r !! i
                ∧ is_Some (r !! i).
Proof.
  apply (read_csv_cells [["name"; "legs"; "legs"]; ["cat"; "1"; "0"; "x"]]
           [row_of [("name", "cat"); ("legs", "0")]] ["legs"; "legs"] "name" 0).
  - vm_compute. reflexivity.
  - reflexivity.
Defined.

(** X3. [build_tree] never raises on what [read_csv] returns: every row then
    carries the label and every feature, and a tree comes back, of depth at
    most the number of feature columns plus one. *)
Theorem build_tree_after_read_csv records rows features label_col :
  read_csv records = Ok (rows, features, label_col) →
  has_columns (label_col :: features) rows
  ∧ ∃ t, build_tree rows features label_col = Ok t
         ∧ (depth t ≤ length features + 1)%nat.
Proof.
  intros Hcols%read_csv_has_columns. split; [done|].
  destruct (build_tree_total _ _ _ Hcols) as [t Ht].
  exists t. split; [done|]. by eapply depth_bound.
Qed.

Lemma build_tree_after_read_csv_witness :
  has_columns ["label"; "legs"] Sample.pets
  ∧ ∃ t, build_tree Sample.pets ["legs"] "label" = Ok t
         ∧ (depth t ≤ length ["legs"] + 1)%nat.
Proof.
  apply (build_tree_after_read_csv
           [["label"; "legs"]; ["cat"; "1"]; ["dog"; "0"]]).
  vm_compute. reflexivity.
Defined.

(** ** all_same_values *)

(** X4. On rows that carry the given columns, [all_same_values] returns
    [True] exactly when any two rows hold the same raw text in every one of
    those columns (no trimming: " 1" and "1" differ); in particular it
    returns [True] for no row and for a single row. *)
Theorem all_same_values_agree rows cols :
  has_columns cols rows →
  ∃ b, all_same_values rows cols = Ok b
       ∧ (b = true ↔
          ∀ row row' : dict, row ∈ rows → row' ∈ rows →
            ∀ c, c ∈ cols → row !! c = row' !! c).
Proof.
  destruct rows as [|row0 rest]; intros Hcols.
  { exists true. split; [done|]. split; [|done]. by intros _ row row' ?%elem_of_nil. }
  destruct (all_same_values_spec _ _ _ Hcols) as (b & Hb & Hall).
  exists b. split; [done|]. rewrite Hall. split.
  - intros Hrest.
    assert (∀ row : dict, row ∈ row0 :: rest → ∀ c, c ∈ cols →
              row !! c = row0 !! c) as Hrow0.
    { intros row [->|Hrow]%elem_of_cons c Hc; [done|].
      rewrite Forall_forall in Hrest. specialize (Hrest row Hrow).
      rewrite Forall_forall in Hrest. by apply Hrest. }
    intros row row' Hrow Hrow' c Hc.
    by rewrite (Hrow0 row Hrow c Hc), (Hrow0 row' Hrow' c Hc).
  - intros Hpair. apply Forall_forall. intros row Hrow.
    apply Forall_forall. intros c Hc. apply Hpair; [by right|by left|done].
Qed.

Lemma all_same_values_agree_witness :
  ∃ b, all_same_values Sample.zoo ["wings"] = Ok b
       ∧ (b = true ↔
          ∀ row row' : dict, row ∈ Sample.zoo → row' ∈ Sample.zoo →
            ∀ c, c ∈ ["wings"] → row !! c = row' !! c).
Proof.
  apply all_same_values_agree.
  apply (bool_decide_unpack _). vm_compute. exact I.
Defined.

Example all_same_values_untrimmed :
  all_same_values [row_of [("fur", "1")]; row_of [("fur", " 1")]] ["fur"]
  = Ok false.
Proof. vm_compute. reflexivity. Qed.

(** ** build_tree *)

(** X5. When no candidate feature is usable on a non-empty row list (none is
    left, every row sits in one bucket, there is a single row, ...),
    [build_tree] returns one leaf whose answers are the labels of all the
    rows, one per row and in row order, duplicates kept. *)
Theorem build_tree_unsplittable rows cls label_col :
  has_columns (label_col :: cls) rows →
  rows ≠ [] →
  (∀ c, c ∈ cls → ¬ usable rows c) →
  ∃ labels, labels_of label_col rows labels
            ∧ build_tree rows cls label_col
              = Ok (Tree (mkTreeNode None None None labels)).
Proof.
  intros Hcols Hne Hnone.
  destruct (build_tree_total _ _ _ Hcols) as [t Ht].
  destruct (build_tree_Ok_inv _ _ _ _ Ht)
    as [?|labels _ Hlabels|best lt rt _ _ _ Hbest _ _]; [done| |].
  - by exists labels.
  - destruct (Hnone best); [by eapply best_split_elem|by eapply best_split_usable].
Qed.

Lemma build_tree_unsplittable_witness :
  ∃ labels, labels_of "label" Sample.zoo labels
            ∧ build_tree Sample.zoo ["wings"] "label"
              = Ok (Tree (mkTreeNode None None None labels)).
Proof.
  apply build_tree_unsplittable.
  - apply (bool_decide_unpack _). vm_compute. exact I.
  - discriminate.
  - intros c ->%list_elem_of_singleton [[H0 H1] _]. vm_compute in H1.
    discriminate.
Defined.

Example build_tree_wings :
  build_tree Sample.zoo ["wings"] "label"
  = Ok (Tree (mkTreeNode None None None ["cat"; "dog"; "emu"; "eel"])).
Proof. vm_compute. reflexivity. Qed.

(** X6. Every node of a tree that [build_tree] returns for a non-empty row
    list is of one of two kinds: no question, no children and at least one
    answer; or a question, both children and no answer.  So [is_leaf] holds
    exactly at the nodes without children. *)
Theorem build_tree_shape rows cls label_col t :
  rows ≠ [] →
  build_tree rows cls label_col = Ok t →
  built_shape t.
Proof. intros Hne Ht. by eapply built_shape_of_build_tree. Qed.

Lemma build_tree_shape_witness :
  built_shape (Tree (mkTreeNode (Some "legs")
                 (Some (Tree (mkTreeNode None None None ["dog"])))
                 (Some (Tree (mkTreeNode None None None ["cat"]))) [])).
Proof.
  apply (build_tree_shape Sample.pets ["legs"] "label").
  - discriminate.
  - vm_compute. reflexivity.
Defined.

(** X7. The answers held by the leaves of a returned tree, taken together,
    are labels of the rows, each row used at most once: nothing is invented
    or duplicated.  When every candidate feature of every row trims to "0"
    or "1", no row is lost either: the leaves hold exactly the labels of the
    rows, up to order. *)
Theorem build_tree_conserves_labels rows cls label_col t labels :
  build_tree rows cls label_col = Ok t →
  labels_of label_col rows labels →
  concat (leaves t) ⊆+ labels
  ∧ (binary cls rows → concat (leaves t) ≡ₚ labels).
Proof. intros Ht. by apply leaves_conserve. Qed.

Lemma build_tree_conserves_labels_witness :
  let t := Tree (mkTreeNode (Some "legs")
              (Some (Tree (mkTreeNode None None None ["dog"; "eel"])))
              (Some (Tree (mkTreeNode None None None ["cat"]))) []) in
  concat (leaves t) ⊆+ ["cat"; "dog"; "emu"; "eel"]
  ∧ (binary ["legs"] Sample.zoo
     → concat (leaves t) ≡ₚ ["cat"; "dog"; "emu"; "eel"]).
Proof.
  apply (build_tree_conserves_labels Sample.zoo ["legs"] "label").
  - vm_compute. reflexivity.
  - repeat constructor.
Defined.

(** X8. Answering the questions of a returned tree from a row of the table
    whose candidate features all trim to "0" or "1" (yes for "1", no for
    "0") leads to a leaf that holds the label of that row, after at most as
    many questions as there are candidate features. *)
Theorem build_tree_walk_finds rows cls label_col t (row : dict) v :
  build_tree rows cls label_col = Ok t →
  row ∈ rows →
  row !! label_col = Some v →
  (∀ c, c ∈ cls → trims_to c "0" row ∨ trims_to c "1" row) →
  ∃ steps answers,
    walk t row = Some (steps, answers) ∧ v ∈ answers
    ∧ (length steps ≤ length cls)%nat.
Proof. intros Ht. by apply walk_finds. Qed.

Lemma build_tree_walk_finds_witness :
  ∃ steps answers,
    walk (Tree (mkTreeNode (Some "legs")
            (Some (Tree (mkTreeNode None None None ["dog"])))
            (Some (Tree (mkTreeNode None None None ["cat"]))) []))
         (row_of [("label", "cat"); ("legs", "1")])
    = Some (steps, answers)
    ∧ "cat" ∈ answers ∧ (length steps ≤ length ["legs"])%nat.
Proof.
  apply (build_tree_walk_finds Sample.pets ["legs"] "label").
  - vm_compute. reflexivity.
  - by left.
  - reflexivity.
  - intros c ->%list_elem_of_singleton. right. reflexivity.
Defined.

(** X9. A feature whose column name is the empty string is never asked:
    when [best_split] selects it, [build_tree] takes the name for "no
    feature" and returns a single leaf with the labels of all the rows, even
    if another feature would separate them. *)
Theorem build_tree_empty_feature_name rows cls label_col :
  best_split rows cls = Ok (Some "") →
  Forall (λ row : dict, is_Some (row !! label_col)) rows →
  ∃ labels, labels_of label_col rows labels
            ∧ build_tree rows cls label_col
              = Ok (Tree (mkTreeNode None None None labels)).
Proof.
  intros Hbest Hlabel.
  assert (has_columns (label_col :: cls) rows) as Hcols.
  { apply best_split_loop_has_columns in Hbest.
    unfold has_columns in *. rewrite Forall_forall in *.
    intros row Hrow c [->|?]%elem_of_cons; [by apply Hlabel|by apply Hbest]. }
  destruct (build_tree_total _ _ _ Hcols) as [t Ht].
  destruct (build_tree_Ok_inv _ _ _ _ Ht)
    as [->|labels _ Hlabels|best lt rt _ _ Hname Hbest' _ _].
  - apply best_split_usable in Hbest as [[H0 _] _]. vm_compute in H0. done.
  - by exists labels.
  - congruence.
Qed.

Lemma build_tree_empty_feature_name_witness :
  let rows := [ row_of [("label", "cat"); ("", "1"); ("legs", "1")];
                row_of [("label", "dog"); ("", "0"); ("legs", "0")] ] in
  ∃ labels, labels_of "label" rows labels
            ∧ build_tree rows [""; "legs"] "label"
              = Ok (Tree (mkTreeNode None None None labels)).
Proof.
  apply build_tree_empty_feature_name.
  - vm_compute. reflexivity.
  - apply (bool_decide_unpack _). vm_compute. exact I.
Defined.

Example build_tree_blank_header :
  build_tree [ row_of [("label", "cat"); ("", "1"); ("legs", "1")];
               row_of [("label", "dog"); ("", "0"); ("legs", "0")] ]
             [""; "legs"] "label"
  = Ok (Tree (mkTreeNode None None None ["cat"; "dog"])).
Proof. vm_compute. reflexivity. Qed.

(** X19. Whatever [build_tree] raises is the [KeyError] for the label
    column or a candidate feature that one of the rows does not have;
    neither it nor [all_same_values] or [best_split] below it raises
    anything else. *)
Theorem build_tree_raises_missing_column rows cls label_col e :
  build_tree rows cls label_col = Raise e →
  missing (label_col :: cls) rows e.
Proof. apply build_tree_Raise. Qed.

Lemma build_tree_raises_missing_column_witness :
  missing ["label"; "legs"; "fur"]
    [ row_of [("label", "cat"); ("legs", "1"); ("fur", "1")];
      row_of [("label", "dog"); ("legs", "0")] ]
    (KeyError "fur").
Proof.
  apply (build_tree_raises_missing_column
           [ row_of [("label", "cat"); ("legs", "1"); ("fur", "1")];
             row_of [("label", "dog"); ("legs", "0")] ]
           ["legs"; "fur"] "label" (KeyError "fur")).
  vm_compute. reflexivity.
Defined.

(** ** The game engine *)

(** X10. [ask_yes_no] goes past every line that is neither yes/y nor no/n
    (after trimming and lowering), showing the prompt and the reminder for
    each, and returns on the first line that is one; when the input ends
    before such a line, the prompt is shown once more and [EOFError] is
    raised. *)
Theorem ask_yes_no_skips prompt retries line answer h rest out :
  Forall (λ l, reply l = None) retries →
  reply line = Some answer →
  ask_yes_no prompt (mkWorld h (retries ++ line :: rest) out)
  = (Ok answer, mkWorld h rest (out ++ retried prompt retries ++ [asked prompt]))
  ∧ ask_yes_no prompt (mkWorld h retries out)
    = (Raise EOFError,
       mkWorld h [] (out ++ retried prompt retries ++ [asked prompt])).
Proof.
  intros Hretries Hline. split.
  - rewrite (ask_yes_no_retries _ _ _ _ _ Hretries).
    rewrite (ask_yes_no_reply _ _ _ _ _ _ Hline). by rewrite <-(assoc_L (++)).
  - rewrite <-(app_nil_r retries) at 1.
    rewrite (ask_yes_no_retries _ _ _ _ _ Hretries), ask_yes_no_eof.
    by rewrite <-(assoc_L (++)).
Qed.

Lemma ask_yes_no_skips_witness :
  ask_yes_no "fur" (mkWorld ∅ (["maybe"; ""] ++ " YES " :: ["no"]) [])
  = (Ok true,
     mkWorld ∅ ["no"] ([] ++ retried "fur" ["maybe"; ""] ++ [asked "fur"]))
  ∧ ask_yes_no "fur" (mkWorld ∅ ["maybe"; ""] [])
    = (Raise EOFError,
       mkWorld ∅ [] ([] ++ retried "fur" ["maybe"; ""] ++ [asked "fur"])).
Proof.
  apply (ask_yes_no_skips "fur" ["maybe"; ""] " YES " true ∅ ["no"] []).
  - repeat constructor.
  - reflexivity.
Defined.

(** X11. When [play_game] returns, the last line it printed is the "Yay!"
    or the "Well played!" line, and the number in that line is the number of
    yes/no replies read during the game, which is at least one. *)
Theorem play_game_reports_replies tree w w' :
  play_game tree w = (Ok (), w') →
  ∃ guesses,
    consumed w w' guesses ∧ 0 < guesses
    ∧ (last (stdout w') = Some (Print (msg_yay guesses))
       ∨ last (stdout w') = Some (Print (msg_well_played guesses))).
Proof. apply play_game_result. Qed.

Lemma play_game_reports_replies_witness :
  let w := mkWorld parlour ["yes"; "perhaps"; "no"; "no"; "yes"] [] in
  ∃ guesses,
    consumed w (play_game (Some 3%positive) w).2 guesses ∧ 0 < guesses
    ∧ (last (stdout (play_game (Some 3%positive) w).2)
       = Some (Print (msg_yay guesses))
       ∨ last (stdout (play_game (Some 3%positive) w).2)
         = Some (Print (msg_well_played guesses))).
Proof.
  apply (play_game_reports_replies (Some 3%positive)
           (mkWorld parlour ["yes"; "perhaps"; "no"; "no"; "yes"] [])).
  vm_compute. reflexivity.
Defined.

(** X12. A whole session ([play_game], "play again?", and so on until "no"
    or the end of the input) only appends to what is on the terminal, and
    never prints "I couldn't make a guess.", whatever the store holds and
    whatever is typed. *)
Theorem main_loop_never_no_guess tree w :
  ∃ out, stdout (main_loop tree w).2 = stdout w ++ out
         ∧ Forall (λ e, e ≠ Print msg_no_guess) out.
Proof.
  destruct (main_loop tree w) as [r w'] eqn:Hmain.
  by apply (main_loop_evolves_with (λ e, e ≠ Print msg_no_guess)) in Hmain
    as (_ & _ & ?).
Qed.

(** X13. A session that returns has printed "Goodbye!" last, and the last
    line it read was a "no". *)
Theorem main_loop_ends_on_no tree w w' :
  main_loop tree w = (Ok (), w') →
  last (stdout w') = Some (Print msg_goodbye)
  ∧ ∃ typed line, stdin w = typed ++ line :: stdin w'
                  ∧ reply line = Some false.
Proof. apply main_loop_ends. Qed.

Lemma main_loop_ends_on_no_witness :
  let w := mkWorld parlour ["no"; "y"; "y"; "yes"; "y"; "N"; "yes"] [] in
  last (stdout (main_loop (Some 3%positive) w).2) = Some (Print msg_goodbye)
  ∧ ∃ typed line, stdin w = typed ++ line :: stdin (main_loop (Some 3%positive) w).2
                  ∧ reply line = Some false.
Proof.
  apply (main_loop_ends_on_no (Some 3%positive)
           (mkWorld parlour ["no"; "y"; "y"; "yes"; "y"; "N"; "yes"] [])).
  vm_compute. reflexivity.
Defined.

(** X14. On a tree that [build_tree] returned and that is in the store,
    neither a game nor a session raises anything but [EOFError]: the only
    way out other than returning is the end of the input. *)
Theorem build_tree_game_only_eof rows cls label_col t root w :
  build_tree rows cls label_col = Ok t →
  rows ≠ [] →
  tree_at (heap w) t root →
  (∀ e w', play_game (Some root) w = (Raise e, w') → e = EOFError)
  ∧ (∀ e w', main_loop (Some root) w = (Raise e, w') → e = EOFError).
Proof.
  intros Ht Hrows Hat.
  pose proof (built_shape_proper _ (built_shape_of_build_tree _ _ _ _ Ht Hrows))
    as Hproper.
  split; intros e w' Hraise.
  - by eapply play_game_proper.
  - by eapply main_loop_proper.
Qed.

Lemma build_tree_game_only_eof_witness :
  let w := mkWorld pets_store ["yes"] [] in
  (∀ e w', play_game (Some pets_root) w = (Raise e, w') → e = EOFError)
  ∧ (∀ e w', main_loop (Some pets_root) w = (Raise e, w') → e = EOFError).
Proof.
  apply (build_tree_game_only_eof Sample.pets ["legs"] "label" pets_tree
           pets_root (mkWorld pets_store ["yes"] [])).
  - vm_compute. reflexivity.
  - discriminate.
  - eapply store_tree_spec. reflexivity.
Defined.

(** X15. Someone who has a row of the table in mind and answers every
    question from it (yes where the feature trims to "1", no where it trims
    to "0"), denies the guesses offered before their label and affirms
    their label, is found: [play_game] on the stored tree returns, having
    asked the questions on the way and the guesses up to theirs, and
    reports the number of replies, which is at most the number of candidate
    features plus the guesses offered. *)
Theorem truthful_player_is_found rows cls label_col t (row : dict) v h root :
  build_tree rows cls label_col = Ok t →
  row ∈ rows →
  row !! label_col = Some v →
  (∀ c, c ∈ cls → trims_to c "0" row ∨ trims_to c "1" row) →
  tree_at h t root →
  ∃ steps found i,
    walk t row = Some (steps, found)
    ∧ found !! i = Some v
    ∧ (length steps ≤ length cls)%nat
    ∧ ∀ lines denied yes rest out,
        Forall2 (λ line (step : string * bool), reply line = Some step.2)
                lines steps →
        Forall (λ line, reply line = Some false) denied →
        length denied = i →
        reply yes = Some true →
        play_game (Some root) (mkWorld h (lines ++ denied ++ yes :: rest) out)
        = (Ok (),
           mkWorld h rest
             (out ++ [Print msg_intro]
                  ++ (asked ∘ fst <$> steps)
                  ++ (asked ∘ msg_guess <$> take (S i) found)
                  ++ [Print (msg_yay (Z.of_nat (length steps + S i)))])).
Proof.
  intros Ht Hrow Hv Hbin Hat.
  destruct (walk_finds _ _ _ _ Ht row v Hrow Hv Hbin)
    as (steps & found & Hwalk & [i Hi]%list_elem_of_lookup_1 & Hlen).
  exists steps, found, i. split_and!; [done..|].
  intros lines denied yes rest out Hlines Hdenied <- Hyes.
  destruct (descend_walk t row steps found root 0 h lines
              (denied ++ yes :: rest) (out ++ [Print msg_intro])
              Hat Hwalk Hlines)
    as (l' & leaf & Hdesc & Hleaf & Hfound).
  assert (found ≠ []) as Hne by (by intros ->).
  rewrite (play_game_at_leaf (Some root)
             (mkWorld h (lines ++ denied ++ yes :: rest) out) _ _ _ leaf Hdesc);
    [|done|by rewrite Hfound].
  rewrite Hfound, confirm_affirmed;
    [|done|done|by apply lookup_lt_Some in Hi].
  rewrite <-!(assoc_L (++)).
  by replace (0 + Z.of_nat (length steps) + Z.of_nat (S (length denied)))
    with (Z.of_nat (length steps + S (length denied))) by lia.
Qed.

Lemma truthful_player_is_found_witness :
  ∃ steps found i,
    walk pets_tree (row_of [("label", "cat"); ("legs", "1")]) = Some (steps, found)
    ∧ found !! i = Some "cat"
    ∧ (length steps ≤ length ["legs"])%nat
    ∧ ∀ lines denied yes rest out,
        Forall2 (λ line (step : string * bool), reply line = Some step.2)
                lines steps →
        Forall (λ line, reply line = Some false) denied →
        length denied = i →
        reply yes = Some true →
        play_game (Some pets_root)
          (mkWorld pets_store (lines ++ denied ++ yes :: rest) out)
        = (Ok (),
           mkWorld pets_store rest
             (out ++ [Print msg_intro]
                  ++ (asked ∘ fst <$> steps)
                  ++ (asked ∘ msg_guess <$> take (S i) found)
                  ++ [Print (msg_yay (Z.of_nat (length steps + S i)))])).
Proof.
  apply (truthful_player_is_found Sample.pets ["legs"] "label" pets_tree
           (row_of [("label", "cat"); ("legs", "1")]) "cat"
           pets_store pets_root).
  - vm_compute. reflexivity.
  - by left.
  - reflexivity.
  - intros c ->%list_elem_of_singleton. right. reflexivity.
  - eapply store_tree_spec. reflexivity.
Defined.

Example truthful_cat :
  play_game (Some pets_root) (mkWorld pets_store ["y"; "yes"] [])
  = (Ok (),
     mkWorld pets_store []
       [ Print msg_intro;
         Prompt "legs (yes/no): ";
         Prompt "Is your guess cat? (yes/no): ";
         Print "Yay! I guessed it in 2 questions!" ]).
Proof. vm_compute. reflexivity. Qed.

(** ** The picture of the tree *)



Example export_pets :
  (export_tree_to_png (Some pets_tree) "pets.png" (mkWorld ∅ [] [])).1
  = Ok [ DotNode "0" "Q: legs?" [("shape", "ellipse")];
         DotNode "1" "Guess(es): dog"
           [("shape", "box"); ("style", "filled"); ("color", "lightgrey")];
         DotEdge "0" "1" "no";
         DotNode "2" "Guess(es): cat"
           [("shape", "box"); ("style", "filled"); ("color", "lightgrey")];
         DotEdge "0" "2" "yes" ].
Proof. vm_compute. reflexivity. Qed.

(** ** main *)

(** X17. On a file that holds a header and no data row, [main] raises
    [AttributeError] while drawing the tree: the node that [build_tree]
    returns for no rows has no answers, so the drawing takes it for a
    question and goes to a child that is [None].  Nothing has been printed
    or read by then, and no game starts. *)
Theorem main_header_only label_col features w :
  ∃ h, main [label_col :: features] w
       = (Raise AttributeError, mkWorld h (stdin w) (stdout w)).
Proof.
  unfold main. cbn [read_csv list_getitem lookup list_lookup mbind result_bind
                    drop comprehension].
  rewrite build_tree_eq. cbn [build_tree_body].
  destruct (store_tree _ (heap w)) as [root h] eqn:Hstore.
  exists h. reflexivity.
Qed.



Example main_pets :
  let w := mkWorld ∅ ["yes"; "yes"; "no"] [] in
  (main [ ["label"; "legs"]; ["cat"; "1"]; ["dog"; "0"] ] w).1 = Ok ()
  ∧ stdout (main [ ["label"; "legs"]; ["cat"; "1"]; ["dog"; "0"] ] w).2
    = [ Print "Tree image saved as tree_visual.png";
        Print msg_intro;
        Prompt "legs (yes/no): ";
        Prompt "Is your guess cat? (yes/no): ";
        Print "Yay! I guessed it in 2 questions!";
        Prompt "Would you like to play again? (yes/no): ";
        Print "Goodbye!" ].
Proof. split; vm_compute; reflexivity. Qed.
